(** * Micro-batch bookkeeping of the pipeline inference engine

    A shallow embedding of [colossalai/inference/engine/microbatch_manager.py]:
    the per-micro-batch descriptions ([HeadMicroBatchDescription],
    [BodyMicroBatchDescription]) with their derived [Status], and the
    [MicroBatchManager] that keeps one description per buffer position.

    Python integers are [Z]; a raised exception is a value of [exn]; a method
    that mutates [self] returns the object after the call together with the
    outcome of the call, so that a mutation made before an exception is
    raised stays visible, as it does in Python. *)

From Stdlib Require Import ZArith Lia.
From stdpp Require Import base option list gmap strings.

Local Open Scope Z_scope.

(** ** Exceptions and results *)

Inductive exn : Type :=
  | TypeError
  | KeyError
  | AttributeError
  | AssertionError
  | IndexError
  | RuntimeError
  | ZeroDivisionError.

Inductive result (A : Type) : Type :=
  | Ok (a : A)
  | Raise (e : exn).
Arguments Ok {A} a.
Arguments Raise {A} e.

Definition bind {A B : Type} (r : result A) (k : A -> result B) : result B :=
  match r with
  | Ok a => k a
  | Raise e => Raise e
  end.

Notation "'let*' x ':=' r 'in' k" := (bind r (fun x => k))
  (at level 10, x pattern, r at level 100, k at level 200).

Definition from_option {A : Type} (e : exn) (o : option A) : result A :=
  match o with
  | Some a => Ok a
  | None => Raise e
  end.

Definition is_Ok {A : Type} (r : result A) : Prop := exists a, r = Ok a.

(** ** Tensors

    The code only handles two-dimensional integer tensors: token grids and
    masks of shape (rows, columns).  A tensor is its shape together with the
    nested list [tolist] gives; the shape is kept apart because a tensor
    without rows still has a column count.  Device placement is not
    modelled ([_update_attnmask] asks for its column of ones on "cuda"). *)

Module Torch.

Record Tensor : Type := mkTensor {
  nrows : nat;
  ncols : nat;
  tolist : list (list Z)
}.

(** The grid agrees with the shape. *)
Definition wf (t : Tensor) : Prop :=
  length (tolist t) = nrows t /\ Forall (fun r => length r = ncols t) (tolist t).

(** [torch.ones((n, 1), dtype=torch.int64)] *)
Definition ones_column (n : nat) : Tensor :=
  mkTensor n 1 (replicate n [1]).

(** [torch.cat([a, b], dim=-1)]: the rows are joined pairwise; the sizes
    must agree in the other dimension. *)
Definition cat (a b : Tensor) : result Tensor :=
  if Nat.eqb (nrows a) (nrows b)
  then Ok (mkTensor (nrows a) (ncols a + ncols b) (zip_with app (tolist a) (tolist b)))
  else Raise RuntimeError.

(** [len(t[0])]: indexing the first row of a tensor without rows raises. *)
Definition len_row0 (t : Tensor) : result nat :=
  match nrows t with
  | O => Raise IndexError
  | S _ => Ok (ncols t)
  end.

(** A token column as one generation step produces it: one id per row. *)
Definition column (rows : list Z) : Tensor :=
  mkTensor (length rows) 1 (map (fun x => [x]) rows).

End Torch.
Import Torch.

(** ** Python dictionaries with integer keys

    A [dict] keeps its keys in the order of their first insertion; assigning
    to a key that is present replaces the value where it stands. *)

Module Dict.

Definition t (V : Type) : Type := list (Z * V).

Fixpoint get {V : Type} (k : Z) (d : t V) : option V :=
  match d with
  | [] => None
  | (k', v) :: rest => if Z.eqb k' k then Some v else get k rest
  end.

Fixpoint set {V : Type} (k : Z) (v : V) (d : t V) : t V :=
  match d with
  | [] => [(k, v)]
  | (k', v') :: rest =>
      if Z.eqb k' k then (k, v) :: rest else (k', v') :: set k v rest
  end.

Fixpoint remove {V : Type} (k : Z) (d : t V) : t V :=
  match d with
  | [] => []
  | (k', v) :: rest => if Z.eqb k' k then rest else (k', v) :: remove k rest
  end.

Definition keys {V : Type} (d : t V) : list Z := map fst d.
Definition values {V : Type} (d : t V) : list V := map snd d.

End Dict.

(** [l[i]] on a Python list: negative indices count from the end. *)
Definition list_getitem {A : Type} (l : list A) (i : Z) : result A :=
  let n := Z.of_nat (length l) in
  if Z.leb 0 i then from_option IndexError (l !! Z.to_nat i)
  else if Z.leb (- n) i then from_option IndexError (l !! Z.to_nat (n + i))
  else Raise IndexError.

(** ** Status *)

Inductive Status : Type :=
  | PREFILL
  | GENERATE
  | DONE
  | COOLDOWN.

Global Instance Status_eq_dec : EqDecision Status.
Proof. solve_decision. Defined.

Section MicroBatch.

(** The key/value cache package ([..kv_cache]) is outside this file's
    source: its two classes are kept abstract. *)
Context {BatchInferState : Type}.
Context {MemoryManager : Type}.

(** [BatchInferState.init_from_batch(batch, max_input_len, max_output_len,
    cache_manager)] *)
Variable init_from_batch :
  gmap string Tensor -> Z -> Z -> MemoryManager -> result BatchInferState.

(** [infer_state.seq_len.max().item()] *)
Variable seq_len_max : BatchInferState -> Z.

(** [cache.free_all()], as the cache manager it leaves behind. *)
Variable free_all : MemoryManager -> MemoryManager.

(** *** [MicroBatchDescription] *)

Record MicroBatchDescription : Type := mkBase {
  mb_length : Z;
  target_length : Z;
  infer_state : BatchInferState
}.

(** [MicroBatchDescription.__init__]; [inputs_dict] may be [None]. *)
Definition MicroBatchDescription_init
    (inputs_dict : option (gmap string Tensor))
    (max_input_len max_output_len : Z) (cache_manager : MemoryManager)
  : result MicroBatchDescription :=
  let* d := from_option TypeError inputs_dict in
  let* ids := from_option KeyError (d !! "input_ids"%string) in
  let mb_length := Z.of_nat (ncols ids) in
  let target_length := mb_length + max_output_len in
  let* st := init_from_batch d max_input_len max_output_len cache_manager in
  Ok (mkBase mb_length target_length st).

(** The [state] property of the base class, from the [cur_length] the
    subclass provides. *)
Definition state_of (cur_length : result Z) (target : Z) : result Status :=
  let* c := cur_length in
  if Z.eqb c target then Ok DONE
  else if Z.eqb c (target - 1) then Ok COOLDOWN
  else Ok GENERATE.

(** *** [HeadMicroBatchDescription] *)

Record HeadMicroBatchDescription : Type := mkHead {
  head_base : MicroBatchDescription;
  input_ids : Tensor;
  attn_mask : Tensor;
  new_tokens : option Tensor
}.

Definition HeadMicroBatchDescription_init
    (inputs_dict : option (gmap string Tensor))
    (max_input_len max_output_len : Z) (cache_manager : MemoryManager)
  : result HeadMicroBatchDescription :=
  let* base :=
    MicroBatchDescription_init inputs_dict max_input_len max_output_len cache_manager in
  let* d := from_option AssertionError inputs_dict in
  let* ids := from_option AssertionError (d !! "input_ids"%string) in
  let* mask := from_option AssertionError (d !! "attention_mask"%string) in
  Ok (mkHead base ids mask None).

Definition head_cur_length (h : HeadMicroBatchDescription) : result Z :=
  match new_tokens h with
  | None => Ok (mb_length (head_base h))
  | Some t =>
      let* n := len_row0 t in
      Ok (mb_length (head_base h) + Z.of_nat n)
  end.

Definition head_state (h : HeadMicroBatchDescription) : result Status :=
  state_of (head_cur_length h) (target_length (head_base h)).

Definition _update_newtokens (h : HeadMicroBatchDescription) (new_token : Tensor)
  : HeadMicroBatchDescription * result unit :=
  match new_tokens h with
  | None =>
      (mkHead (head_base h) (input_ids h) (attn_mask h) (Some new_token), Ok tt)
  | Some old =>
      match cat old new_token with
      | Ok t => (mkHead (head_base h) (input_ids h) (attn_mask h) (Some t), Ok tt)
      | Raise e => (h, Raise e)
      end
  end.

Definition _update_attnmask (h : HeadMicroBatchDescription)
  : HeadMicroBatchDescription * result unit :=
  match cat (attn_mask h) (ones_column (nrows (attn_mask h))) with
  | Ok m => (mkHead (head_base h) (input_ids h) m (new_tokens h), Ok tt)
  | Raise e => (h, Raise e)
  end.

(** [HeadMicroBatchDescription.update]: the token is appended first, the
    state is read after it, and the mask grows only when that state is not
    [DONE] and a token was given. *)
Definition head_update (h : HeadMicroBatchDescription) (new_token : option Tensor)
  : HeadMicroBatchDescription * result unit :=
  let '(h1, r1) :=
    match new_token with
    | Some t => _update_newtokens h t
    | None => (h, Ok tt)
    end in
  match r1 with
  | Raise e => (h1, Raise e)
  | Ok _ =>
      match head_state h1 with
      | Raise e => (h1, Raise e)
      | Ok s =>
          if bool_decide (s <> DONE) && bool_decide (is_Some new_token)
          then _update_attnmask h1
          else (h1, Ok tt)
      end
  end.

(** *** [BodyMicroBatchDescription] *)

Record BodyMicroBatchDescription : Type := mkBody {
  body_base : MicroBatchDescription
}.

Definition BodyMicroBatchDescription_init
    (inputs_dict : option (gmap string Tensor))
    (max_input_len max_output_len : Z) (cache_manager : MemoryManager)
  : result BodyMicroBatchDescription :=
  let* base :=
    MicroBatchDescription_init inputs_dict max_input_len max_output_len cache_manager in
  Ok (mkBody base).

Definition body_cur_length (b : BodyMicroBatchDescription) : result Z :=
  Ok (seq_len_max (infer_state (body_base b))).

Definition body_state (b : BodyMicroBatchDescription) : result Status :=
  state_of (body_cur_length b) (target_length (body_base b)).

(** The inherited [update(self, *args, **kwargs): pass]. *)
Definition body_update (b : BodyMicroBatchDescription) (new_token : option Tensor)
  : BodyMicroBatchDescription * result unit :=
  (b, Ok tt).

(** *** Descriptions as the manager holds them

    The buffer holds objects of either subclass; a method call dispatches
    on the class of the object. *)

Inductive Description : Type :=
  | Head (h : HeadMicroBatchDescription)
  | Body (b : BodyMicroBatchDescription).

Definition is_head (d : Description) : bool :=
  match d with Head _ => true | Body _ => false end.

Definition base (d : Description) : MicroBatchDescription :=
  match d with
  | Head h => head_base h
  | Body b => body_base b
  end.

Definition cur_length (d : Description) : result Z :=
  match d with
  | Head h => head_cur_length h
  | Body b => body_cur_length b
  end.

Definition state (d : Description) : result Status :=
  state_of (cur_length d) (target_length (base d)).

Definition update (d : Description) (new_token : option Tensor)
  : Description * result unit :=
  match d with
  | Head h => let '(h', r) := head_update h new_token in (Head h', r)
  | Body b => let '(b', r) := body_update b new_token in (Body b', r)
  end.

(** [d.new_tokens.tolist()]: only a head description has the attribute,
    and it is [None] until the first token. *)
Definition new_tokens_tolist (d : Description) : result (list (list Z)) :=
  match d with
  | Head h =>
      let* t := from_option AttributeError (new_tokens h) in
      Ok (tolist t)
  | Body _ => Raise AttributeError
  end.

(** *** [MicroBatchManager] *)

Record MicroBatchManager : Type := mkManager {
  stage : Z;
  micro_batch_size : Z;
  buffer_size : Z;
  max_input_len : Z;
  max_output_len : Z;
  cache_manager_list : list MemoryManager;
  mb_description_buffer : Dict.t Description;
  new_tokens_buffer : Dict.t Tensor;
  idx : Z
}.

Definition MicroBatchManager_init
    (stage micro_batch_size micro_batch_buffer_size max_input_len max_output_len : Z)
    (cache_manager_list : list MemoryManager) : MicroBatchManager :=
  mkManager stage micro_batch_size micro_batch_buffer_size max_input_len
    max_output_len cache_manager_list [] [] 0.

Definition with_buffer (m : MicroBatchManager) (buf : Dict.t Description)
  : MicroBatchManager :=
  mkManager (stage m) (micro_batch_size m) (buffer_size m) (max_input_len m)
    (max_output_len m) (cache_manager_list m) buf (new_tokens_buffer m) (idx m).

(** [self.mb_description_buffer.pop(self.idx)] raises [KeyError] when
    nothing is stored at [idx]. *)
Definition _remove_description (m : MicroBatchManager)
  : MicroBatchManager * result unit :=
  match Dict.get (idx m) (mb_description_buffer m) with
  | Some _ => (with_buffer m (Dict.remove (idx m) (mb_description_buffer m)), Ok tt)
  | None => (m, Raise KeyError)
  end.

Definition cur_description (m : MicroBatchManager) : option Description :=
  Dict.get (idx m) (mb_description_buffer m).

Definition cur_infer_state (m : MicroBatchManager) : option BatchInferState :=
  match cur_description m with
  | None => None
  | Some d => Some (infer_state (base d))
  end.

Definition cur_state (m : MicroBatchManager) : result Status :=
  match cur_description m with
  | None => Ok PREFILL
  | Some d => state d
  end.

(** [add_description]: the right-hand side of the assignment, here
    [new_description], is evaluated first (the cache manager lookup, then the
    constructor for the stage); when it raises, the buffer is left as it
    was.  Nothing looks at what the buffer holds at [idx]. *)
Definition new_description (m : MicroBatchManager)
    (inputs_dict : option (gmap string Tensor)) : result Description :=
  let* cm := list_getitem (cache_manager_list m) (idx m) in
  if Z.eqb (stage m) 0
  then
    let* h :=
      HeadMicroBatchDescription_init inputs_dict (max_input_len m)
        (max_output_len m) cm in
    Ok (Head h)
  else
    let* b :=
      BodyMicroBatchDescription_init inputs_dict (max_input_len m)
        (max_output_len m) cm in
    Ok (Body b).

Definition add_description (m : MicroBatchManager)
    (inputs_dict : option (gmap string Tensor))
  : MicroBatchManager * result unit :=
  match new_description m inputs_dict with
  | Ok d => (with_buffer m (Dict.set (idx m) d (mb_description_buffer m)), Ok tt)
  | Raise e => (m, Raise e)
  end.

(** [self.cur_description.update(new_token); return self.cur_state]:
    [cur_description] is [None] when nothing is stored at [idx], and a
    method call on [None] raises [AttributeError].  The description is
    updated in place, so it keeps its place in the buffer. *)
Definition step (m : MicroBatchManager) (new_token : option Tensor)
  : MicroBatchManager * result Status :=
  match cur_description m with
  | None => (m, Raise AttributeError)
  | Some d =>
      let '(d', r) := update d new_token in
      let m' := with_buffer m (Dict.set (idx m) d' (mb_description_buffer m)) in
      match r with
      | Raise e => (m', Raise e)
      | Ok _ => (m', cur_state m')
      end
  end.

Fixpoint export_loop (ds : list Description) (new_tokens_list : list (list Z))
  : result (list (list Z)) :=
  match ds with
  | [] => Ok new_tokens_list
  | i :: rest =>
      let* rows := new_tokens_tolist i in
      export_loop rest (new_tokens_list ++ rows)
  end.

Definition export_new_tokens (m : MicroBatchManager) : result (list (list Z)) :=
  export_loop (Dict.values (mb_description_buffer m)) [].

Fixpoint done_loop (ds : list Description) : result bool :=
  match ds with
  | [] => Ok true
  | mb :: rest =>
      let* s := state mb in
      if bool_decide (s <> DONE) then Ok false else done_loop rest
  end.

Definition is_micro_batch_done (m : MicroBatchManager) : result bool :=
  if Nat.eqb (length (mb_description_buffer m)) 0 then Ok false
  else done_loop (Dict.values (mb_description_buffer m)).

Definition clear (m : MicroBatchManager) : MicroBatchManager :=
  mkManager (stage m) (micro_batch_size m) (buffer_size m) (max_input_len m)
    (max_output_len m) (map free_all (cache_manager_list m)) []
    (new_tokens_buffer m) (idx m).

(** [self.idx = (self.idx + 1) % self.buffer_size]; Python's [%] takes the
    sign of the divisor, as [Z.modulo] does. *)
Definition next (m : MicroBatchManager) : MicroBatchManager * result unit :=
  if Z.eqb (buffer_size m) 0 then (m, Raise ZeroDivisionError)
  else
    (mkManager (stage m) (micro_batch_size m) (buffer_size m) (max_input_len m)
       (max_output_len m) (cache_manager_list m) (mb_description_buffer m)
       (new_tokens_buffer m) ((idx m + 1) mod buffer_size m), Ok tt).

(** *** Sequences of calls

    What a caller sees when it feeds a head description one token after the
    other and reads [state] after each [update]; the first exception ends
    the run. *)
Fixpoint observe (h : HeadMicroBatchDescription) (toks : list Tensor)
  : result (HeadMicroBatchDescription * list Status) :=
  match toks with
  | [] => Ok (h, [])
  | t :: rest =>
      let '(h1, r) := head_update h (Some t) in
      let* _ := r in
      let* s := head_state h1 in
      let* run := observe h1 rest in
      Ok (fst run, s :: snd run)
  end.

(** The description after a sequence of [update] calls with any arguments,
    whatever each call's outcome (a caller may catch the exception and go
    on). *)
Definition update_seq (h : HeadMicroBatchDescription) (args : list (option Tensor))
  : HeadMicroBatchDescription :=
  foldl (fun h a => fst (head_update h a)) h args.

(** The number of token columns a head description has accumulated. *)
Definition gen_count (h : HeadMicroBatchDescription) : nat :=
  match new_tokens h with
  | None => O
  | Some t => ncols t
  end.

(** Every token grid in the description has at least one row. *)
Definition has_rows (d : Description) : Prop :=
  match d with
  | Head h =>
      match new_tokens h with
      | None => True
      | Some t => (0 < nrows t)%nat
      end
  | Body _ => True
  end.

(** The managers a program can build: from the constructor, by the public
    methods. *)
Inductive reachable : MicroBatchManager -> Prop :=
  | reach_init st mbs bs mil mol cms :
      reachable (MicroBatchManager_init st mbs bs mil mol cms)
  | reach_add m inputs_dict :
      reachable m -> reachable (fst (add_description m inputs_dict))
  | reach_step m new_token :
      reachable m -> reachable (fst (step m new_token))
  | reach_next m :
      reachable m -> reachable (fst (next m))
  | reach_clear m :
      reachable m -> reachable (clear m).

(** All token grids seen so far have [b] rows. *)
Definition tokens_rows (b : nat) (h : HeadMicroBatchDescription) : Prop :=
  match new_tokens h with
  | None => True
  | Some t => nrows t = b
  end.

(** The states a caller reads while [n] tokens are still to come, the last
    of them completing the sequence. *)
Fixpoint countdown (n : nat) : list Status :=
  match n with
  | O => []
  | S O => [DONE]
  | S (S O as m) => COOLDOWN :: countdown m
  | S m => GENERATE :: countdown m
  end.

(** A sequence of [update] calls in which a token is a single column and is
    only given while the description is not read as [DONE]. *)
Fixpoint guarded (h : HeadMicroBatchDescription) (args : list (option Tensor)) : Prop :=
  match args with
  | [] => True
  | a :: rest =>
      match a with
      | None => True
      | Some t => ncols t = 1%nat /\ head_state h <> Ok DONE
      end
      /\ guarded (fst (head_update h a)) rest
  end.

(** The token grid a description would export, if it has one. *)
Definition tokens_of (d : Description) : option Tensor :=
  match d with
  | Head h => new_tokens h
  | Body _ => None
  end.

(** Descriptions are of the class the stage calls for. *)
Definition roles_ok (m : MicroBatchManager) : Prop :=
  Forall (fun d => is_head d = Z.eqb (stage m) 0) (Dict.values (mb_description_buffer m)).

(** The grid [t] has [b] rows, and row [i] lists the [i]-th ids of the
    columns [cols] in the order of [cols]. *)
Definition grid_ok (b : nat) (cols : list (list Z)) (t : Tensor) : Prop :=
  nrows t = b
  /\ ncols t = length cols
  /\ length (tolist t) = b
  /\ forall i, (i < b)%nat ->
       tolist t !! i = Some (map (fun col => nth i col 0) cols).

(** The specification's reading of the export, kept apart from the code's
    [export_new_tokens]: one entry per position, position 0 first, each
    entry the rows of the description at that position. *)
Definition rows_at (m : MicroBatchManager) (i : nat) : option (list (list Z)) :=
  match Dict.get (Z.of_nat i) (mb_description_buffer m) with
  | Some d =>
      match tokens_of d with
      | Some t => Some (tolist t)
      | None => None
      end
  | None => None
  end.

Definition collect_outputs_by_position (m : MicroBatchManager)
  : list (list (list Z)) :=
  omap (rows_at m) (seq 0 (Z.to_nat (buffer_size m))).

(** [next] called [n] times in a row. *)
Fixpoint next_n (n : nat) (m : MicroBatchManager) : MicroBatchManager :=
  match n with
  | O => m
  | S n' => next_n n' (fst (next m))
  end.

(** [step] called with one token after the other, as a driver does for the
    description at the current position; the first exception ends the run.
    The states returned by the calls are collected. *)
Fixpoint step_all (m : MicroBatchManager) (toks : list Tensor)
  : MicroBatchManager * result (list Status) :=
  match toks with
  | [] => (m, Ok [])
  | t :: rest =>
      let '(m1, r) := step m (Some t) in
      match r with
      | Raise e => (m1, Raise e)
      | Ok s =>
          let '(m2, r2) := step_all m1 rest in
          (m2, match r2 with
               | Ok ss => Ok (s :: ss)
               | Raise e => Raise e
               end)
      end
  end.

(** *** Call histories

    The calls a driver can make on a manager, a token being absent or one
    column with one id per batch row. *)
Inductive call : Type :=
  | CallAdd (inputs_dict : option (gmap string Tensor))
  | CallStep (new_token : option (list Z))
  | CallNext
  | CallClear
  | CallRemove.

(** The manager after one call, whatever the call's outcome. *)
Definition do_call (m : MicroBatchManager) (c : call) : MicroBatchManager :=
  match c with
  | CallAdd inputs_dict => fst (add_description m inputs_dict)
  | CallStep new_token => fst (step m (option_map column new_token))
  | CallNext => fst (next m)
  | CallClear => clear m
  | CallRemove => fst (_remove_description m)
  end.

(** The manager after a sequence of calls. *)
Definition run (m : MicroBatchManager) (calls : list call) : MicroBatchManager :=
  foldl do_call m calls.

(** What a history of calls says about the positions, kept apart from the
    buffer of the code: the positions that hold a description, in the order
    in which they were filled, each with the token columns stepped into its
    description since that description was added, in the order of the
    steps. *)
Definition fill_log : Type := list (Z * list (list Z)).

(** A description is added at [pos]: a position that holds none goes last;
    one that holds a description keeps its place and starts again without
    tokens. *)
Definition log_fill (pos : Z) (l : fill_log) : fill_log :=
  if bool_decide (pos ∈ map fst l)
  then map (fun e => if Z.eqb (fst e) pos then (fst e, []) else e) l
  else l ++ [(pos, [])].

(** A token column is stepped into the description at [pos], if there is
    one: it comes after the columns already there. *)
Definition log_token (pos : Z) (col : list Z) (l : fill_log) : fill_log :=
  map (fun e => if Z.eqb (fst e) pos then (fst e, snd e ++ [col]) else e) l.

(** The description at [pos] is taken out. *)
Definition log_remove (pos : Z) (l : fill_log) : fill_log :=
  List.filter (fun e => negb (Z.eqb (fst e) pos)) l.

(** The log after one call on manager [m]: of the code, only the cursor
    and whether [add_description] succeeded are looked at. *)
Definition log_call (m : MicroBatchManager) (c : call) (l : fill_log) : fill_log :=
  match c with
  | CallAdd inputs_dict =>
      match snd (add_description m inputs_dict) with
      | Ok _ => log_fill (idx m) l
      | Raise _ => l
      end
  | CallStep (Some col) => log_token (idx m) col l
  | CallStep None => l
  | CallNext => l
  | CallClear => []
  | CallRemove => log_remove (idx m) l
  end.

(** The log after a sequence of calls starting on manager [m] with log [l]. *)
Fixpoint log_of (m : MicroBatchManager) (calls : list call) (l : fill_log) : fill_log :=
  match calls with
  | [] => l
  | c :: rest => log_of (do_call m c) rest (log_call m c l)
  end.

(** The rows token columns make for a batch of [b] rows: row [i] lists the
    [i]-th id of each column, in the order of the columns. *)
Definition rows_of_columns (b : nat) (cols : list (list Z)) : list (list Z) :=
  map (fun i => map (fun col => nth i col 0) cols) (seq 0 b).

(** Description [d] is a head description that holds exactly the token
    columns [cols]. *)
Definition slot_holds (b : nat) (cols : list (list Z)) (d : Description) : Prop :=
  exists h,
    d = Head h
    /\ match cols with
       | [] => new_tokens h = None
       | _ :: _ => exists t, new_tokens h = Some t /\ grid_ok b cols t
       end.

(** The buffer holds what the log says, position by position and in the
    same order. *)
Definition log_matches (b : nat) (l : fill_log) (buf : Dict.t Description) : Prop :=
  Forall2 (fun e kv => fst kv = fst e /\ slot_holds b (snd e) (snd kv)) l buf.

(** * Properties *)

(** ** Dictionaries *)

Lemma dict_get_set_eq {V : Type} (k : Z) (v : V) (d : Dict.t V) :
  Dict.get k (Dict.set k v d) = Some v.
Proof.
  induction d as [|[k' v'] d IH]; simpl.
  - by rewrite Z.eqb_refl.
  - destruct (Z.eqb k' k) eqn:E; simpl.
    + by rewrite Z.eqb_refl.
    + by rewrite E.
Qed.

Lemma dict_get_set_ne {V : Type} (k j : Z) (v : V) (d : Dict.t V) :
  j <> k -> Dict.get j (Dict.set k v d) = Dict.get j d.
Proof.
  intros Hne. induction d as [|[k' v'] d IH]; simpl.
  - destruct (Z.eqb_spec k j); congruence.
  - destruct (Z.eqb_spec k' k) as [->|Hk]; simpl.
    + destruct (Z.eqb_spec k j); congruence.
    + destruct (Z.eqb_spec k' j); auto.
Qed.

Lemma dict_keys_set_present {V : Type} (k : Z) (v : V) (d : Dict.t V) :
  is_Some (Dict.get k d) -> Dict.keys (Dict.set k v d) = Dict.keys d.
Proof.
  induction d as [|[k' v'] d IH]; simpl; intros [x Hx].
  - discriminate.
  - destruct (Z.eqb_spec k' k) as [->|Hk]; simpl; [done|].
    f_equal. apply IH. eauto.
Qed.

Lemma dict_set_absent {V : Type} (k : Z) (v : V) (d : Dict.t V) :
  Dict.get k d = None -> Dict.set k v d = d ++ [(k, v)].
Proof.
  induction d as [|[k' v'] d IH]; simpl; intros Hget; [done|].
  destruct (Z.eqb k' k); [discriminate|].
  by rewrite IH.
Qed.

Lemma dict_get_elem {V : Type} (k : Z) (v : V) (d : Dict.t V) :
  Dict.get k d = Some v -> v ∈ Dict.values d.
Proof.
  induction d as [|[k' v'] d IH]; simpl; [done|].
  destruct (Z.eqb k' k); intros Hget.
  - injection Hget as ->. apply list_elem_of_here.
  - apply list_elem_of_further. auto.
Qed.

Lemma dict_values_set {V : Type} (k : Z) (v : V) (d : Dict.t V) (x : V) :
  x ∈ Dict.values (Dict.set k v d) -> x = v \/ x ∈ Dict.values d.
Proof.
  induction d as [|[k' v'] d IH]; simpl.
  - intros Hx. apply list_elem_of_singleton in Hx. by left.
  - destruct (Z.eqb k' k); simpl; intros Hx; apply elem_of_cons in Hx.
    + destruct Hx as [->|Hx]; [by left|]. right. by apply list_elem_of_further.
    + destruct Hx as [->|Hx]; [right; apply list_elem_of_here|].
      destruct (IH Hx) as [->|Hin]; [by left|].
      right. by apply list_elem_of_further.
Qed.

(** ** Tensors *)

Lemma cat_ones_column (m : Tensor) :
  cat m (ones_column (nrows m))
  = Ok (mkTensor (nrows m) (ncols m + 1)
          (zip_with app (tolist m) (replicate (nrows m) [1]))).
Proof. unfold cat. simpl. by rewrite Nat.eqb_refl. Qed.

Lemma cat_Ok_shape (a b c : Tensor) :
  cat a b = Ok c ->
  nrows c = nrows a /\ nrows b = nrows a /\ ncols c = (ncols a + ncols b)%nat.
Proof.
  unfold cat. destruct (Nat.eqb_spec (nrows a) (nrows b)) as [E|E]; [|discriminate].
  intros [= <-]. simpl. auto.
Qed.

Lemma wf_ones_column (n : nat) : wf (ones_column n).
Proof.
  unfold wf, ones_column. simpl. split.
  - apply length_replicate.
  - apply Forall_forall. intros r Hr. by apply elem_of_replicate in Hr as [-> _].
Qed.

Lemma wf_column (rows : list Z) : wf (column rows).
Proof.
  unfold wf, column. simpl. split.
  - apply length_map.
  - induction rows; simpl; constructor; auto.
Qed.

(** Joining two well-formed grids gives a well-formed grid. *)
Lemma wf_cat (a b c : Tensor) : wf a -> wf b -> cat a b = Ok c -> wf c.
Proof.
  intros [Hla Hra] [Hlb Hrb]. unfold cat.
  destruct (Nat.eqb_spec (nrows a) (nrows b)) as [E|E]; [|discriminate].
  intros [= <-]. unfold wf. simpl. split.
  - rewrite length_zip_with. lia.
  - clear Hla Hlb E. revert Hra Hrb. generalize (tolist b), (tolist a).
    intros lb la Hra. revert lb. induction Hra as [|x la Hx Hra IH]; intros lb Hrb.
    + constructor.
    + destruct Hrb as [|y lb Hy Hrb]; simpl; constructor.
      * rewrite length_app. lia.
      * by apply IH.
Qed.

(** ** Head descriptions *)

Lemma head_update_None (h : HeadMicroBatchDescription) :
  fst (head_update h None) = h.
Proof.
  unfold head_update. destruct (head_state h) as [s|e]; simpl; [|done].
  by rewrite andb_false_r.
Qed.

Lemma _update_attnmask_Ok (h : HeadMicroBatchDescription) :
  exists m,
    _update_attnmask h = (mkHead (head_base h) (input_ids h) m (new_tokens h), Ok tt)
    /\ ncols m = (ncols (attn_mask h) + 1)%nat
    /\ nrows m = nrows (attn_mask h).
Proof.
  unfold _update_attnmask. rewrite cat_ones_column. eexists. split; [done|]. by simpl.
Qed.

(** [update] never touches the base fields nor the input ids. *)
Lemma head_update_base (h : HeadMicroBatchDescription) (a : option Tensor) :
  head_base (fst (head_update h a)) = head_base h
  /\ input_ids (fst (head_update h a)) = input_ids h.
Proof.
  unfold head_update, _update_newtokens.
  destruct a as [t|]; [destruct (new_tokens h) as [old|]; [destruct (cat old t)|]|];
    simpl; try done;
    match goal with
    | |- context [head_state ?x] =>
        destruct (head_state x) as [s|e]; simpl; try done;
        destruct (bool_decide (s <> DONE)); simpl; try done;
        destruct (_update_attnmask_Ok x) as (m & -> & _); done
    end.
Qed.

(** What [update] with a token does, case by case. *)
Lemma head_update_Some (h : HeadMicroBatchDescription) (t : Tensor) :
  let '(h1, r1) := _update_newtokens h t in
  match r1 with
  | Raise e => head_update h (Some t) = (h, Raise e) /\ h1 = h
  | Ok _ =>
      match head_state h1 with
      | Raise e => head_update h (Some t) = (h1, Raise e)
      | Ok DONE => head_update h (Some t) = (h1, Ok tt)
      | Ok _ => head_update h (Some t) = _update_attnmask h1
      end
  end.
Proof.
  unfold head_update.
  destruct (_update_newtokens h t) as [h1 [[]|e]] eqn:E.
  - destruct (head_state h1) as [[]|e]; done.
  - split; [|]; unfold _update_newtokens in E;
      destruct (new_tokens h); [destruct (cat _ t)| | destruct (cat _ t)|]; congruence.
Qed.

Lemma _update_newtokens_count (h : HeadMicroBatchDescription) (t : Tensor) :
  gen_count (fst (_update_newtokens h t)) = gen_count h
  \/ gen_count (fst (_update_newtokens h t)) = (gen_count h + ncols t)%nat.
Proof.
  unfold _update_newtokens, gen_count.
  destruct (new_tokens h) as [old|] eqn:Hn; simpl; [|by right].
  destruct (cat old t) as [c|e] eqn:E; simpl.
  - right. by apply cat_Ok_shape in E as (_ & _ & ->).
  - left. by rewrite Hn.
Qed.

Lemma _update_attnmask_tokens (h : HeadMicroBatchDescription) :
  new_tokens (fst (_update_attnmask h)) = new_tokens h.
Proof. by destruct (_update_attnmask_Ok h) as (m & -> & _). Qed.

Lemma head_update_tokens (h : HeadMicroBatchDescription) (t : Tensor) :
  new_tokens (fst (head_update h (Some t))) = new_tokens (fst (_update_newtokens h t)).
Proof.
  pose proof (head_update_Some h t) as H.
  destruct (_update_newtokens h t) as [h1 [[]|e]]; simpl.
  - destruct (head_state h1) as [[]|e]; rewrite H; simpl; try done;
      apply _update_attnmask_tokens.
  - by destruct H as [-> ->].
Qed.

(** The number of accumulated token columns never goes down. *)
Lemma gen_count_update (h : HeadMicroBatchDescription) (a : option Tensor) :
  (gen_count h <= gen_count (fst (head_update h a)))%nat.
Proof.
  destruct a as [t|]; [|by rewrite head_update_None].
  unfold gen_count at 2. rewrite head_update_tokens.
  fold (gen_count (fst (_update_newtokens h t))).
  destruct (_update_newtokens_count h t) as [-> | ->]; lia.
Qed.

Lemma head_cur_length_Ok (h : HeadMicroBatchDescription) (c : Z) :
  head_cur_length h = Ok c ->
  c = mb_length (head_base h) + Z.of_nat (gen_count h).
Proof.
  unfold head_cur_length, gen_count, len_row0.
  destruct (new_tokens h) as [t|]; simpl.
  - destruct (nrows t); simpl; [discriminate|]. by intros [= <-].
  - intros [= <-]. lia.
Qed.

Lemma update_seq_base (args : list (option Tensor)) (h : HeadMicroBatchDescription) :
  head_base (update_seq h args) = head_base h.
Proof.
  revert h. induction args as [|a args IH]; intros h; simpl; [done|].
  unfold update_seq in *. simpl. rewrite IH. apply head_update_base.
Qed.

Lemma gen_count_update_seq (args : list (option Tensor)) (h : HeadMicroBatchDescription) :
  (gen_count h <= gen_count (update_seq h args))%nat.
Proof.
  revert h. induction args as [|a args IH]; intros h; simpl; [done|].
  unfold update_seq in *. simpl.
  etrans; [apply (gen_count_update h a)|apply IH].
Qed.

Lemma head_cur_length_ext (h1 h2 : HeadMicroBatchDescription) :
  head_base h1 = head_base h2 -> new_tokens h1 = new_tokens h2 ->
  head_cur_length h1 = head_cur_length h2.
Proof. unfold head_cur_length. by intros -> ->. Qed.

Lemma head_state_ext (h1 h2 : HeadMicroBatchDescription) :
  head_base h1 = head_base h2 -> new_tokens h1 = new_tokens h2 ->
  head_state h1 = head_state h2.
Proof.
  intros Hb Ht. unfold head_state. by rewrite (head_cur_length_ext h1 h2), Hb.
Qed.

Lemma _update_newtokens_frame (h : HeadMicroBatchDescription) (t : Tensor) :
  head_base (fst (_update_newtokens h t)) = head_base h
  /\ attn_mask (fst (_update_newtokens h t)) = attn_mask h.
Proof.
  unfold _update_newtokens.
  destruct (new_tokens h) as [old|]; [destruct (cat old t)|]; done.
Qed.

Lemma head_state_after_mask (h : HeadMicroBatchDescription) :
  head_state (fst (_update_attnmask h)) = head_state h.
Proof. by destruct (_update_attnmask_Ok h) as (m & -> & _). Qed.

(** The mask after one [update] with a token, by the state read after it. *)
Lemma head_update_mask (h : HeadMicroBatchDescription) (t : Tensor) :
  let h1 := fst (head_update h (Some t)) in
  match head_state h1 with
  | Ok DONE => attn_mask h1 = attn_mask h
  | Ok _ =>
      snd (head_update h (Some t)) = Ok tt ->
      ncols (attn_mask h1) = (ncols (attn_mask h) + 1)%nat
      /\ nrows (attn_mask h1) = nrows (attn_mask h)
  | Raise _ => attn_mask h1 = attn_mask h
  end.
Proof.
  pose proof (head_update_Some h t) as H.
  pose proof (_update_newtokens_frame h t) as [_ Hm].
  destruct (_update_newtokens h t) as [h0 [[]|e]]; simpl in *.
  - destruct (head_state h0) as [s|e] eqn:Hs.
    + assert (s = DONE \/ s <> DONE) as [->|Hne] by (destruct s; auto).
      * rewrite H. simpl. by rewrite Hs.
      * assert (head_update h (Some t) = _update_attnmask h0) as -> by by destruct s.
        rewrite head_state_after_mask, Hs.
        destruct (_update_attnmask_Ok h0) as (m & -> & Hc & Hr). simpl.
        rewrite <- Hm. by destruct s.
    + rewrite H. simpl. by rewrite Hs.
  - destruct H as [-> _]. simpl. by destruct (head_state h) as [[]|].
Qed.

(** One [update] with a well-shaped token column succeeds and moves the
    length forward by one. *)
Lemma head_update_column (b : nat) (h : HeadMicroBatchDescription) (t : Tensor) :
  (0 < b)%nat -> tokens_rows b h -> nrows t = b -> ncols t = 1%nat ->
  exists h1,
    head_update h (Some t) = (h1, Ok tt)
    /\ head_base h1 = head_base h
    /\ tokens_rows b h1
    /\ head_cur_length h = Ok (mb_length (head_base h) + Z.of_nat (gen_count h))
    /\ head_cur_length h1 = Ok (mb_length (head_base h) + Z.of_nat (gen_count h) + 1).
Proof.
  intros Hb Hrows Ht Hc.
  assert (exists h0 t0,
    _update_newtokens h t = (h0, Ok tt) /\ head_base h0 = head_base h
    /\ new_tokens h0 = Some t0 /\ nrows t0 = b
    /\ ncols t0 = (gen_count h + 1)%nat
    /\ head_cur_length h = Ok (mb_length (head_base h) + Z.of_nat (gen_count h)))
    as (h0 & t0 & E & Hbase & Hnew & Hr0 & Hc0 & Hlen).
  { unfold _update_newtokens, tokens_rows, gen_count, head_cur_length, len_row0 in *.
    destruct (new_tokens h) as [old|] eqn:Hn.
    - unfold cat. rewrite Hrows, Ht, Nat.eqb_refl.
      eexists _, _. repeat split; simpl; try done; [lia|].
      destruct b; [lia|]. done.
    - eexists _, _. repeat split; simpl; try done.
      f_equal. lia. }
  assert (head_cur_length h0
          = Ok (mb_length (head_base h) + Z.of_nat (gen_count h) + 1)) as Hlen0.
  { unfold head_cur_length, len_row0. rewrite Hnew, Hr0, Hbase.
    destruct b; [lia|]. simpl. rewrite Hc0. f_equal. lia. }
  pose proof (head_update_Some h t) as H. rewrite E in H.
  unfold head_state, state_of in H. rewrite Hlen0 in H. simpl in H.
  set (c := mb_length (head_base h) + Z.of_nat (gen_count h) + 1) in *.
  destruct (Z.eqb c (target_length (head_base h0))).
  - exists h0. repeat split; try done. unfold tokens_rows. by rewrite Hnew.
  - destruct (_update_attnmask_Ok h0) as (m & Em & _).
    assert (head_update h (Some t) = _update_attnmask h0) as ->
      by by destruct (Z.eqb c (target_length (head_base h0) - 1)).
    rewrite Em. eexists. repeat split; simpl; try done.
    unfold tokens_rows. simpl. by rewrite Hnew.
Qed.

Lemma countdown_shape (n : nat) :
  countdown (S (S n)) = replicate n GENERATE ++ [COOLDOWN; DONE].
Proof.
  induction n as [|n IH]; [done|].
  change (countdown (S (S (S n)))) with (GENERATE :: countdown (S (S n))).
  by rewrite IH.
Qed.

Lemma state_of_countdown (c target : Z) (n : nat) :
  target = c + Z.of_nat n ->
  state_of (Ok c) target
  = Ok (match n with O => DONE | S O => COOLDOWN | _ => GENERATE end).
Proof.
  intros ->. unfold state_of. simpl.
  destruct n as [|[|n]].
  - replace (c + Z.of_nat 0) with c by lia. by rewrite Z.eqb_refl.
  - destruct (Z.eqb_spec c (c + Z.of_nat 1)); [lia|].
    destruct (Z.eqb_spec c (c + Z.of_nat 1 - 1)); [done|lia].
  - destruct (Z.eqb_spec c (c + Z.of_nat (S (S n)))); [lia|].
    destruct (Z.eqb_spec c (c + Z.of_nat (S (S n)) - 1)); [lia|done].
Qed.

Lemma observe_countdown (b : nat) (toks : list Tensor) :
  (0 < b)%nat ->
  Forall (fun t => nrows t = b /\ ncols t = 1%nat) toks ->
  forall h : HeadMicroBatchDescription,
    tokens_rows b h ->
    target_length (head_base h)
    = mb_length (head_base h) + Z.of_nat (gen_count h) + Z.of_nat (length toks) ->
    exists h',
      observe h toks = Ok (h', countdown (length toks))
      /\ head_base h' = head_base h
      /\ (toks <> [] -> head_cur_length h' = Ok (target_length (head_base h))).
Proof.
  intros Hb Hall. induction Hall as [|t toks [Hr Hc] Hall IH]; intros h Hrows Htarget.
  - exists h. by repeat split.
  - destruct (head_update_column b h t Hb Hrows Hr Hc)
      as (h1 & E & Hbase & Hrows1 & Hlen & Hlen1).
    assert (Z.of_nat (gen_count h1) = Z.of_nat (gen_count h) + 1) as Hcount.
    { apply head_cur_length_Ok in Hlen1. rewrite Hbase in Hlen1. lia. }
    destruct (IH h1 Hrows1) as (h' & Hobs & Hbase' & Hfinal).
    { rewrite Hbase, Hcount. simpl length in Htarget. lia. }
    exists h'. simpl observe. rewrite E. simpl.
    unfold head_state. rewrite Hlen1, Hbase.
    rewrite (state_of_countdown _ _ (length toks))
      by (simpl length in Htarget; lia).
    simpl. rewrite Hobs. simpl. repeat split.
    + by destruct (length toks) as [|[|n]].
    + congruence.
    + intros _. destruct toks as [|t' toks'].
      * simpl in Hobs. injection Hobs as <-. rewrite Hlen1. f_equal.
        simpl length in Htarget. lia.
      * rewrite Hfinal by done. by rewrite Hbase.
Qed.

Lemma HeadMicroBatchDescription_init_Ok
    (inputs_dict : option (gmap string Tensor)) (mil mol : Z)
    (cm : MemoryManager) (h : HeadMicroBatchDescription) :
  HeadMicroBatchDescription_init inputs_dict mil mol cm = Ok h ->
  exists d ids mask st,
    inputs_dict = Some d
    /\ d !! "input_ids"%string = Some ids
    /\ d !! "attention_mask"%string = Some mask
    /\ init_from_batch d mil mol cm = Ok st
    /\ h = mkHead (mkBase (Z.of_nat (ncols ids)) (Z.of_nat (ncols ids) + mol) st)
             ids mask None.
Proof.
  unfold HeadMicroBatchDescription_init, MicroBatchDescription_init.
  destruct inputs_dict as [d|]; simpl; [|discriminate].
  destruct (d !! "input_ids"%string) as [ids|] eqn:Hids; simpl; [|discriminate].
  destruct (init_from_batch d mil mol cm) as [st|] eqn:Hst; simpl; [|discriminate].
  destruct (d !! "attention_mask"%string) as [mask|] eqn:Hmask; simpl;
    [|discriminate].
  intros [= <-]. by exists d, ids, mask, st.
Qed.

(** ** Head descriptions: states, masks and lengths *)

(** C10. [update] without a token ([None]) leaves a head description as it
    was: the generated tokens, the attention mask, the current length and
    the state are those of before the call. *)
Theorem update_None_unchanged (h : HeadMicroBatchDescription) :
  fst (head_update h None) = h
  /\ new_tokens (fst (head_update h None)) = new_tokens h
  /\ attn_mask (fst (head_update h None)) = attn_mask h
  /\ head_cur_length (fst (head_update h None)) = head_cur_length h
  /\ head_state (fst (head_update h None)) = head_state h.
Proof. by rewrite head_update_None. Qed.

(** C4. A head description created with [max_output_len = k >= 1] and fed
    [k] token columns (one id per row of a non-empty batch) accepts each of
    them; the states read after creation and after each update are
    [GENERATE] [k - 1] times, then [COOLDOWN] once, then [DONE], so that
    [DONE] is read after the [k]-th update and not before, and for [k = 1]
    the state right after creation is [COOLDOWN]. *)
Theorem head_state_sequence
    (inputs_dict : option (gmap string Tensor)) (mil k : Z) (cm : MemoryManager)
    (h : HeadMicroBatchDescription) (toks : list Tensor) (b : nat) :
  1 <= k ->
  HeadMicroBatchDescription_init inputs_dict mil k cm = Ok h ->
  Z.of_nat (length toks) = k ->
  (0 < b)%nat ->
  Forall (fun t => nrows t = b /\ ncols t = 1%nat) toks ->
  exists s0 h' ss,
    head_state h = Ok s0
    /\ observe h toks = Ok (h', ss)
    /\ s0 :: ss = replicate (Z.to_nat (k - 1)) GENERATE ++ [COOLDOWN; DONE]
    /\ (k = 1 -> s0 = COOLDOWN)
    /\ head_cur_length h' = Ok (target_length (head_base h)).
Proof.
  intros Hk Hinit Hlen Hb Hall.
  apply HeadMicroBatchDescription_init_Ok in Hinit
    as (d & ids & mask & st & _ & _ & _ & _ & ->).
  set (h := mkHead _ _ _ _).
  destruct (observe_countdown b toks Hb Hall h) as (h' & Hobs & Hbase & Hfinal).
  { done. }
  { unfold h, gen_count. simpl. lia. }
  exists (match length toks with S O => COOLDOWN | _ => GENERATE end), h',
    (countdown (length toks)).
  assert (length toks = S (Z.to_nat (k - 1))) as Hn by lia.
  repeat split.
  - unfold head_state, head_cur_length, h.
    cbn [new_tokens head_base target_length mb_length].
    rewrite (state_of_countdown _ _ (length toks)) by lia.
    rewrite Hn. by destruct (Z.to_nat (k - 1)).
  - done.
  - rewrite Hn. rewrite <- countdown_shape. by destruct (Z.to_nat (k - 1)).
  - intros ->. by rewrite Hn.
  - apply Hfinal. intros ->. simpl in Hn. lia.
Qed.

(** C5. After [n] updates with a token, each accepted and none of them
    read as [DONE] afterwards, the attention mask is [n] columns longer
    than it was; and an update with a token after which the state is
    [DONE] leaves the attention mask as it was. *)
Theorem attn_mask_growth
    (h h' : HeadMicroBatchDescription) (toks : list Tensor) (ss : list Status) :
  observe h toks = Ok (h', ss) ->
  Forall (fun s => s <> DONE) ss ->
  ncols (attn_mask h') = (ncols (attn_mask h) + length toks)%nat
  /\ forall t : Tensor,
       head_state (fst (head_update h' (Some t))) = Ok DONE ->
       attn_mask (fst (head_update h' (Some t))) = attn_mask h'.
Proof.
  intros Hobs Hss. split.
  - revert h ss Hobs Hss. induction toks as [|t toks IH]; intros h ss Hobs Hss.
    + injection Hobs as <- <-. simpl. lia.
    + simpl in Hobs. pose proof (head_update_mask h t) as Hm. simpl in Hm.
      destruct (head_update h (Some t)) as [h1 r]. simpl in *.
      destruct r as [[]|e]; simpl in Hobs; [|discriminate].
      destruct (head_state h1) as [s|e]; simpl in Hobs; [|discriminate].
      destruct (observe h1 toks) as [[h2 ss2]|e] eqn:Hrun; simpl in Hobs;
        [|discriminate].
      injection Hobs as <- <-. apply Forall_cons in Hss as [Hs Hss].
      rewrite (IH h1 ss2 Hrun Hss).
      destruct s; try done; destruct Hm as [-> _]; try done; lia.
  - intros t Hdone. pose proof (head_update_mask h' t) as Hm. simpl in Hm.
    by rewrite Hdone in Hm.
Qed.

Lemma head_state_not_DONE (h : HeadMicroBatchDescription) (c : Z) :
  head_cur_length h = Ok c -> head_state h <> Ok DONE ->
  c <> target_length (head_base h).
Proof.
  unfold head_state, state_of. intros -> Hs Hc. simpl in Hs.
  rewrite Hc, Z.eqb_refl in Hs. by apply Hs.
Qed.

Lemma guarded_update_bound (h : HeadMicroBatchDescription) (t : Tensor) :
  (forall c, head_cur_length h = Ok c -> c <= target_length (head_base h)) ->
  ncols t = 1%nat -> head_state h <> Ok DONE ->
  forall c, head_cur_length (fst (head_update h (Some t))) = Ok c ->
            c <= target_length (head_base h).
Proof.
  intros Hinv Hc Hs c.
  rewrite (head_cur_length_ext _ (fst (_update_newtokens h t))).
  2: { rewrite (proj1 (head_update_base h (Some t))).
       symmetry. apply _update_newtokens_frame. }
  2: { apply head_update_tokens. }
  unfold _update_newtokens.
  destruct (new_tokens h) as [old|] eqn:Hn.
  - destruct (cat old t) as [t'|e] eqn:E; simpl; [|apply Hinv].
    apply cat_Ok_shape in E as (Hr' & _ & Hc').
    unfold head_cur_length, len_row0. simpl.
    destruct (nrows t') as [|r] eqn:Hrows; simpl; [discriminate|].
    intros [= <-].
    assert (head_cur_length h = Ok (mb_length (head_base h) + Z.of_nat (ncols old)))
      as Hlen.
    { unfold head_cur_length, len_row0. rewrite Hn, <- Hr'. done. }
    pose proof (Hinv _ Hlen). pose proof (head_state_not_DONE _ _ Hlen Hs). lia.
  - unfold head_cur_length, len_row0. simpl.
    destruct (nrows t); simpl; [discriminate|]. intros [= <-].
    assert (head_cur_length h = Ok (mb_length (head_base h))) as Hlen.
    { unfold head_cur_length. by rewrite Hn. }
    pose proof (Hinv _ Hlen). pose proof (head_state_not_DONE _ _ Hlen Hs). lia.
Qed.

(** C6, as the code has it. Over any sequence of [update] calls, with any
    arguments and whatever their outcomes, the current length never goes
    down.  It stays at or below the target length when it starts there and
    every token given is a single column given while the description is not
    read as [DONE]; nothing in [update] refuses a token otherwise. *)
Theorem cur_length_monotone_bounded
    (h : HeadMicroBatchDescription) (args : list (option Tensor)) (c0 c : Z) :
  head_cur_length h = Ok c0 ->
  head_cur_length (update_seq h args) = Ok c ->
  c0 <= c
  /\ (c0 <= target_length (head_base h) -> guarded h args ->
      c <= target_length (head_base h)).
Proof.
  intros H0 H1. split.
  - apply head_cur_length_Ok in H0, H1. rewrite update_seq_base in H1.
    pose proof (gen_count_update_seq args h). lia.
  - intros Hle Hg.
    assert (forall c', head_cur_length h = Ok c' -> c' <= target_length (head_base h))
      as Hinv by (intros c'; rewrite H0; by intros [= <-]).
    clear H0 Hle. revert h Hg Hinv c H1.
    induction args as [|a args IH]; intros h Hg Hinv c H1.
    + by apply Hinv.
    + destruct Hg as [Ha Hg]. unfold update_seq in H1. simpl in H1.
      rewrite <- (proj1 (head_update_base h a)).
      apply IH; [done| |done].
      rewrite (proj1 (head_update_base h a)).
      destruct a as [t|].
      * destruct Ha as [Hc Hs]. by apply guarded_update_bound.
      * by rewrite head_update_None.
Qed.

(** ** The manager *)

Lemma update_is_head (d : Description) (a : option Tensor) :
  is_head (fst (update d a)) = is_head d.
Proof.
  destruct d as [h|b]; simpl.
  - by destruct (head_update h a).
  - done.
Qed.

Lemma new_description_is_head (m : MicroBatchManager)
    (inputs_dict : option (gmap string Tensor)) (d : Description) :
  new_description m inputs_dict = Ok d -> is_head d = Z.eqb (stage m) 0.
Proof.
  unfold new_description.
  destruct (list_getitem (cache_manager_list m) (idx m)) as [cm|]; simpl;
    [|discriminate].
  destruct (Z.eqb (stage m) 0).
  - destruct (HeadMicroBatchDescription_init _ _ _ _); simpl; [|discriminate].
    by intros [= <-].
  - destruct (BodyMicroBatchDescription_init _ _ _ _); simpl; [|discriminate].
    by intros [= <-].
Qed.

Lemma roles_ok_set (m : MicroBatchManager) (k : Z) (d : Description) :
  roles_ok m -> is_head d = Z.eqb (stage m) 0 ->
  roles_ok (with_buffer m (Dict.set k d (mb_description_buffer m))).
Proof.
  unfold roles_ok. rewrite !Forall_forall. simpl. intros Hall Hd x Hx.
  apply dict_values_set in Hx as [->|Hx]; auto.
Qed.

Lemma reachable_roles_ok (m : MicroBatchManager) : reachable m -> roles_ok m.
Proof.
  induction 1 as [| m inputs_dict _ IH | m new_token _ IH | m _ IH | m _ IH].
  - apply Forall_nil_2.
  - unfold add_description.
    destruct (new_description m inputs_dict) as [d|e] eqn:E; simpl; [|done].
    apply roles_ok_set; [done|]. by apply new_description_is_head in E.
  - unfold step. destruct (cur_description m) as [d|] eqn:E; simpl; [|done].
    pose proof (update_is_head d new_token) as Hh.
    destruct (update d new_token) as [d' r]. simpl in Hh.
    assert (roles_ok (with_buffer m (Dict.set (idx m) d' (mb_description_buffer m)))).
    { apply roles_ok_set; [done|]. rewrite Hh.
      unfold roles_ok in IH. rewrite Forall_forall in IH.
      apply IH. by apply (dict_get_elem (idx m)). }
    by destruct r.
  - unfold next. by destruct (Z.eqb (buffer_size m) 0).
  - apply Forall_nil_2.
Qed.

(** C2. [step] at a position where the buffer holds nothing raises (the
    [AttributeError] of calling [update] on [None]) and leaves the manager
    as it was.  Where a description is stored, [step] hands the token to
    that description's [update], keeps the updated description at the same
    position, touches nothing else, and returns the state of the updated
    description (or passes on what [update] raised). *)
Theorem step_delegates (m : MicroBatchManager) (new_token : option Tensor) :
  (cur_description m = None -> step m new_token = (m, Raise AttributeError))
  /\ (forall d : Description,
        cur_description m = Some d ->
        cur_description (fst (step m new_token)) = Some (fst (update d new_token))
        /\ idx (fst (step m new_token)) = idx m
        /\ Dict.keys (mb_description_buffer (fst (step m new_token)))
           = Dict.keys (mb_description_buffer m)
        /\ (forall j, j <> idx m ->
              Dict.get j (mb_description_buffer (fst (step m new_token)))
              = Dict.get j (mb_description_buffer m))
        /\ snd (step m new_token)
           = match snd (update d new_token) with
             | Ok _ => state (fst (update d new_token))
             | Raise e => Raise e
             end).
Proof.
  split.
  - intros Hnone. unfold step. by rewrite Hnone.
  - intros d Hd. unfold step. rewrite Hd.
    destruct (update d new_token) as [d' r]. simpl.
    set (m' := with_buffer m (Dict.set (idx m) d' (mb_description_buffer m))).
    assert (cur_description m' = Some d') as Hcur
      by apply dict_get_set_eq.
    assert (Dict.keys (mb_description_buffer m') = Dict.keys (mb_description_buffer m))
      as Hkeys by (apply dict_keys_set_present; unfold cur_description in Hd; eauto).
    assert (forall j, j <> idx m ->
              Dict.get j (mb_description_buffer m') = Dict.get j (mb_description_buffer m))
      as Hother by (intros j Hj; by apply dict_get_set_ne).
    destruct r as [[]|e]; simpl; repeat split; try done.
    unfold cur_state. by rewrite Hcur.
Qed.

(** C1, as the code has it. [add_description] does not look at what the
    buffer holds at the current position: on an occupied position, when the
    new description can be built the call succeeds and the new description
    takes the place of the old one (the positions, their order and the
    other descriptions stay); when building it raises, that exception comes
    out and the manager is as before. *)
Theorem add_description_replaces
    (m : MicroBatchManager) (inputs_dict : option (gmap string Tensor))
    (old : Description) :
  cur_description m = Some old ->
  match new_description m inputs_dict with
  | Ok d =>
      snd (add_description m inputs_dict) = Ok tt
      /\ cur_description (fst (add_description m inputs_dict)) = Some d
      /\ idx (fst (add_description m inputs_dict)) = idx m
      /\ Dict.keys (mb_description_buffer (fst (add_description m inputs_dict)))
         = Dict.keys (mb_description_buffer m)
      /\ (forall j, j <> idx m ->
            Dict.get j (mb_description_buffer (fst (add_description m inputs_dict)))
            = Dict.get j (mb_description_buffer m))
  | Raise e => add_description m inputs_dict = (m, Raise e)
  end.
Proof.
  intros Hold. unfold add_description.
  destruct (new_description m inputs_dict) as [d|e]; [|done].
  simpl. repeat split.
  - apply dict_get_set_eq.
  - apply dict_keys_set_present. unfold cur_description in Hold. eauto.
  - intros j Hj. by apply dict_get_set_ne.
Qed.

(** Building a description of either class from an absent input record
    raises: the base constructor reads [inputs_dict["input_ids"]] before
    anything else. *)
Lemma init_without_inputs (mil mol : Z) (cm : MemoryManager) :
  BodyMicroBatchDescription_init None mil mol cm = Raise TypeError
  /\ HeadMicroBatchDescription_init None mil mol cm = Raise TypeError.
Proof. done. Qed.

Lemma state_has_rows (d : Description) : has_rows d -> is_Ok (state d).
Proof.
  unfold state, state_of, is_Ok.
  destruct d as [h|b]; simpl.
  - unfold head_cur_length, len_row0.
    destruct (new_tokens h) as [t|]; simpl.
    + intros Hr. destruct (nrows t); [lia|]. simpl.
      repeat case_match; eauto.
    + intros _. repeat case_match; eauto.
  - intros _. repeat case_match; eauto.
Qed.

Lemma done_loop_true (ds : list Description) :
  done_loop ds = Ok true <-> Forall (fun d => state d = Ok DONE) ds.
Proof.
  induction ds as [|d ds IH]; simpl.
  - split; [intros _; apply Forall_nil_2|done].
  - rewrite Forall_cons. destruct (state d) as [s|e]; simpl.
    + destruct (decide (s = DONE)) as [->|Hne].
      * rewrite bool_decide_eq_false_2 by auto. rewrite IH. tauto.
      * rewrite bool_decide_eq_true_2 by done.
        split; [discriminate|]. intros [[= ->] _]. done.
    + split; [discriminate|]. intros [[=] _].
Qed.

Lemma done_loop_false (ds : list Description) :
  Forall has_rows ds ->
  Exists (fun d => state d <> Ok DONE) ds ->
  done_loop ds = Ok false.
Proof.
  induction 1 as [|d ds Hd Hds IH]; intros Hex.
  - by apply Exists_nil in Hex.
  - simpl. destruct (state_has_rows d Hd) as [s Hs]. rewrite Hs. simpl.
    destruct (decide (s = DONE)) as [->|Hne].
    + rewrite bool_decide_eq_false_2 by auto.
      apply Exists_cons in Hex as [Hhere|Hlater]; [congruence|auto].
    + by rewrite bool_decide_eq_true_2.
Qed.

(** C7. [is_micro_batch_done] answers [False] on an empty buffer; it
    answers [True] exactly when the buffer is not empty and every
    description in it is [DONE]; and it answers [False] when some
    description in the buffer is not [DONE] (every description having a
    state, that is, no token grid without rows). *)
Theorem is_micro_batch_done_spec (m : MicroBatchManager) :
  (mb_description_buffer m = [] -> is_micro_batch_done m = Ok false)
  /\ (is_micro_batch_done m = Ok true <->
      mb_description_buffer m <> []
      /\ Forall (fun d => state d = Ok DONE) (Dict.values (mb_description_buffer m)))
  /\ (Forall has_rows (Dict.values (mb_description_buffer m)) ->
      Exists (fun d => state d <> Ok DONE) (Dict.values (mb_description_buffer m)) ->
      is_micro_batch_done m = Ok false).
Proof.
  unfold is_micro_batch_done.
  destruct (mb_description_buffer m) as [|kv buf] eqn:E.
  - split; [done|split].
    + split; [discriminate|]. by intros [? _].
    + intros _ Hex. by apply Exists_nil in Hex.
  - change (Nat.eqb (length (kv :: buf)) 0) with false. cbv iota.
    split; [discriminate|split].
    + rewrite done_loop_true. split; [done|]. by intros [_ ?].
    + apply done_loop_false.
Qed.

Lemma export_loop_Ok (ds : list Description) (ts : list Tensor) (acc : list (list Z)) :
  map tokens_of ds = map Some ts ->
  export_loop ds acc = Ok (acc ++ concat (map tolist ts)).
Proof.
  revert ts acc. induction ds as [|d ds IH]; intros [|t ts] acc Hmap;
    simpl in Hmap; try discriminate.
  - simpl. by rewrite app_nil_r.
  - injection Hmap as Ht Hmap. simpl.
    destruct d as [h|b]; simpl in Ht; [|discriminate].
    unfold new_tokens_tolist. rewrite Ht. simpl.
    rewrite (IH ts) by done. by rewrite app_assoc.
Qed.

Lemma export_loop_Raise (ds : list Description) (acc : list (list Z)) :
  Exists (fun d => tokens_of d = None) ds ->
  export_loop ds acc = Raise AttributeError.
Proof.
  intros Hex. revert acc. induction Hex as [d ds Hd|d ds Hex IH]; intros acc; simpl.
  - destruct d as [h|b]; simpl in *; [|done]. by rewrite Hd.
  - destruct (new_tokens_tolist d) as [rows|e] eqn:E; simpl; [apply IH|].
    destruct d as [h|b]; simpl in E; [|congruence].
    destruct (new_tokens h); simpl in E; congruence.
Qed.

(** C3, as the code has it. On a manager of a later stage
    ([stage <> 0]), [export_new_tokens] raises as soon as the buffer holds
    a description (a body description has no [new_tokens]); on an empty
    buffer it returns the empty list. *)
Theorem export_new_tokens_body (m : MicroBatchManager) :
  reachable m -> stage m <> 0 ->
  (mb_description_buffer m = [] -> export_new_tokens m = Ok [])
  /\ (mb_description_buffer m <> [] -> export_new_tokens m = Raise AttributeError).
Proof.
  intros Hreach Hstage. apply reachable_roles_ok in Hreach.
  unfold export_new_tokens, roles_ok in *. split.
  - by intros ->.
  - destruct (mb_description_buffer m) as [|[k d] buf]; [done|]. intros _.
    apply export_loop_Raise. simpl. apply Exists_cons_hd.
    apply Forall_cons in Hreach as [Hd _]. simpl in Hd.
    destruct (Z.eqb_spec (stage m) 0); [done|].
    by destruct d.
Qed.

Lemma column_lookup (col : list Z) (i : nat) :
  (i < length col)%nat ->
  map (fun x => [x]) col !! i = Some [nth i col 0].
Proof.
  revert i. induction col as [|x col IH]; intros i Hi; simpl in *; [lia|].
  destruct i as [|i]; [done|]. apply IH. lia.
Qed.

Lemma column_grid_ok (col : list Z) : grid_ok (length col) [col] (column col).
Proof.
  unfold grid_ok, column. simpl. repeat split.
  - by rewrite length_map.
  - intros i Hi. by rewrite column_lookup.
Qed.

Lemma cat_grid_ok (b : nat) (cols : list (list Z)) (t : Tensor) (col : list Z) :
  grid_ok b cols t -> length col = b ->
  exists t', cat t (column col) = Ok t' /\ grid_ok b (cols ++ [col]) t'.
Proof.
  intros (Hr & Hc & Hl & Hrows) Hcol. unfold cat. simpl.
  rewrite Hr, Hcol, Nat.eqb_refl. eexists. split; [done|].
  unfold grid_ok. simpl. repeat split.
  - rewrite Hc, length_app. simpl. lia.
  - rewrite length_zip_with, length_map. lia.
  - intros i Hi. rewrite lookup_zip_with, (Hrows i Hi). simpl.
    rewrite column_lookup by lia. simpl. by rewrite map_app.
Qed.

Lemma update_seq_grid (b : nat) (rest pre : list (list Z))
    (h : HeadMicroBatchDescription) :
  Forall (fun col => length col = b) rest ->
  match pre with
  | [] => new_tokens h = None
  | _ => exists t, new_tokens h = Some t /\ grid_ok b pre t
  end ->
  pre ++ rest <> [] ->
  exists t',
    new_tokens (update_seq h (map (fun col => Some (column col)) rest)) = Some t'
    /\ grid_ok b (pre ++ rest) t'.
Proof.
  intros Hall. revert pre h.
  induction Hall as [|col rest Hcol Hall IH]; intros pre h Hpre Hne.
  - rewrite app_nil_r in *. destruct pre; [done|]. exact Hpre.
  - unfold update_seq in *. simpl.
    replace (pre ++ col :: rest) with ((pre ++ [col]) ++ rest)
      by by rewrite <- app_assoc.
    apply IH; [|by destruct pre].
    assert (exists t, new_tokens (fst (head_update h (Some (column col)))) = Some t
                      /\ grid_ok b (pre ++ [col]) t) as Hnew.
    { rewrite head_update_tokens. unfold _update_newtokens.
      destruct pre as [|c0 pre].
      - rewrite Hpre. simpl. eexists. split; [done|].
        rewrite <- Hcol. apply column_grid_ok.
      - destruct Hpre as (t & -> & Hgrid).
        destruct (cat_grid_ok _ _ _ col Hgrid Hcol) as (t' & -> & Hgrid').
        by exists t'. }
    by destruct (pre ++ [col]) eqn:E; [destruct pre|].
Qed.

(** The token grid of a head description lists, row by row, the ids in the
    order in which their columns were given to [update]. *)
Lemma tokens_in_generation_order (b : nat) (cols : list (list Z))
    (h : HeadMicroBatchDescription) :
  new_tokens h = None ->
  Forall (fun col => length col = b) cols ->
  cols <> [] ->
  exists t,
    new_tokens (update_seq h (map (fun col => Some (column col)) cols)) = Some t
    /\ grid_ok b cols t.
Proof.
  intros Hnone Hall Hne. by apply (update_seq_grid b cols [] h).
Qed.

Lemma dict_get_seq {V : Type} (d : Dict.t V) (s n j : nat) :
  Dict.keys d = map Z.of_nat (seq s n) -> (j < n)%nat ->
  Dict.get (Z.of_nat (s + j)) d = Dict.values d !! j.
Proof.
  revert s n j. induction d as [|[k v] d IH]; intros s n j Hkeys Hj.
  - destruct n; [lia|discriminate].
  - destruct n as [|n]; [lia|]. simpl in Hkeys. injection Hkeys as -> Hkeys.
    simpl. destruct j as [|j].
    + by rewrite Nat.add_0_r, Z.eqb_refl.
    + destruct (Z.eqb_spec (Z.of_nat s) (Z.of_nat (s + S j))); [lia|].
      replace (s + S j)%nat with (S s + j)%nat by lia.
      apply (IH (S s) n); [done|lia].
Qed.

(** The visiting order of the buffer: a description added at a free
    position goes last, one added at an occupied position takes the place
    of the old one, and [clear] empties the buffer. *)
Lemma add_description_keys (m : MicroBatchManager)
    (inputs_dict : option (gmap string Tensor)) (d : Description) :
  new_description m inputs_dict = Ok d ->
  Dict.keys (mb_description_buffer (fst (add_description m inputs_dict)))
  = match cur_description m with
    | Some _ => Dict.keys (mb_description_buffer m)
    | None => Dict.keys (mb_description_buffer m) ++ [idx m]
    end.
Proof.
  intros E. unfold add_description, cur_description. rewrite E. simpl.
  destruct (Dict.get (idx m) (mb_description_buffer m)) as [old|] eqn:Hget.
  - apply dict_keys_set_present. eauto.
  - rewrite dict_set_absent by done. unfold Dict.keys. by rewrite map_app.
Qed.

Lemma clear_buffer (m : MicroBatchManager) :
  mb_description_buffer (clear m) = [] /\ idx (clear m) = idx m.
Proof. done. Qed.

(** When every description in the buffer has a token grid,
    [export_new_tokens] returns the rows of the grids one after the other,
    in the order of the buffer; with the positions 0, 1, 2, ... as keys in
    that order, the [j]-th grid is that of position [j]. *)
Lemma export_new_tokens_head (m : MicroBatchManager) (ts : list Tensor) :
  map tokens_of (Dict.values (mb_description_buffer m)) = map Some ts ->
  export_new_tokens m = Ok (concat (map tolist ts))
  /\ forall n j : nat,
       Dict.keys (mb_description_buffer m) = map Z.of_nat (seq 0 n) ->
       (j < n)%nat ->
       Dict.get (Z.of_nat j) (mb_description_buffer m) ≫= tokens_of = ts !! j.
Proof.
  intros Hmap. split.
  - unfold export_new_tokens. by rewrite (export_loop_Ok _ ts).
  - intros n j Hkeys Hj.
    pose proof (dict_get_seq _ 0 n j Hkeys Hj) as Hget. simpl in Hget.
    rewrite Hget.
    assert (map tokens_of (Dict.values (mb_description_buffer m)) !! j
            = map Some ts !! j) as Hj' by by rewrite Hmap.
    change (map tokens_of ?l) with (tokens_of <$> l) in Hj'.
    change (map Some ts) with (Some <$> ts) in Hj'.
    rewrite !list_lookup_fmap in Hj'.
    destruct (Dict.values (mb_description_buffer m) !! j) as [d|]; simpl in *.
    + destruct (ts !! j); simpl in *; congruence.
    + destruct (ts !! j); simpl in *; congruence.
Qed.

(** * Further properties of the code *)

(** ** Dictionaries, continued *)

Lemma dict_set_same {V : Type} (k : Z) (v : V) (d : Dict.t V) :
  Dict.get k d = Some v -> Dict.set k v d = d.
Proof.
  induction d as [|[k' v'] d IH]; simpl; [done|].
  destruct (Z.eqb_spec k' k) as [->|Hk].
  - by intros [= ->].
  - intros Hget. by rewrite IH.
Qed.

Lemma dict_set_set {V : Type} (k : Z) (v w : V) (d : Dict.t V) :
  Dict.set k w (Dict.set k v d) = Dict.set k w d.
Proof.
  induction d as [|[k' v'] d IH]; simpl.
  - by rewrite Z.eqb_refl.
  - destruct (Z.eqb k' k) eqn:E; simpl.
    + by rewrite Z.eqb_refl.
    + by rewrite E, IH.
Qed.

Lemma dict_get_None_keys {V : Type} (k : Z) (d : Dict.t V) :
  Dict.get k d = None <-> k ∉ Dict.keys d.
Proof.
  induction d as [|[k' v'] d IH]; simpl.
  - split; [intros _; apply not_elem_of_nil|done].
  - rewrite not_elem_of_cons. destruct (Z.eqb_spec k' k) as [->|Hk].
    + split; [discriminate|]. by intros [? _].
    + rewrite IH. split; [intros ?; split; congruence|by intros [_ ?]].
Qed.

Lemma dict_keys_set {V : Type} (k : Z) (v : V) (d : Dict.t V) :
  Dict.keys (Dict.set k v d)
  = match Dict.get k d with
    | Some _ => Dict.keys d
    | None => Dict.keys d ++ [k]
    end.
Proof.
  destruct (Dict.get k d) as [x|] eqn:E.
  - apply dict_keys_set_present. eauto.
  - rewrite dict_set_absent by done. unfold Dict.keys. by rewrite map_app.
Qed.

Lemma dict_keys_set_NoDup {V : Type} (k : Z) (v : V) (d : Dict.t V) :
  NoDup (Dict.keys d) -> NoDup (Dict.keys (Dict.set k v d)).
Proof.
  intros Hnd. rewrite dict_keys_set.
  destruct (Dict.get k d) as [x|] eqn:E; [done|].
  apply NoDup_app. split; [done|]. split.
  - intros x Hx Hin. apply list_elem_of_singleton in Hin as ->.
    by apply dict_get_None_keys in E.
  - apply NoDup_singleton.
Qed.

Lemma dict_get_remove_eq {V : Type} (k : Z) (d : Dict.t V) :
  NoDup (Dict.keys d) -> Dict.get k (Dict.remove k d) = None.
Proof.
  induction d as [|[k' v'] d IH]; simpl; [done|].
  rewrite NoDup_cons. intros [Hk' Hnd].
  destruct (Z.eqb_spec k' k) as [->|Hk]; simpl.
  - by apply dict_get_None_keys.
  - destruct (Z.eqb_spec k' k); [done|]. by apply IH.
Qed.

Lemma dict_get_remove_ne {V : Type} (k j : Z) (d : Dict.t V) :
  j <> k -> Dict.get j (Dict.remove k d) = Dict.get j d.
Proof.
  intros Hne. induction d as [|[k' v'] d IH]; simpl; [done|].
  destruct (Z.eqb_spec k' k) as [->|Hk]; simpl.
  - destruct (Z.eqb_spec k j); congruence.
  - by rewrite IH.
Qed.

Lemma dict_remove_set_absent {V : Type} (k : Z) (v : V) (d : Dict.t V) :
  Dict.get k d = None -> Dict.remove k (Dict.set k v d) = d.
Proof.
  induction d as [|[k' v'] d IH]; simpl.
  - by rewrite Z.eqb_refl.
  - destruct (Z.eqb k' k) eqn:E; [discriminate|]. simpl. rewrite E.
    intros Hget. by rewrite IH.
Qed.

Lemma dict_length_remove {V : Type} (k : Z) (v : V) (d : Dict.t V) :
  Dict.get k d = Some v -> S (length (Dict.remove k d)) = length d.
Proof.
  induction d as [|[k' v'] d IH]; simpl; [done|].
  destruct (Z.eqb k' k); [done|]. intros Hget. simpl. by rewrite IH.
Qed.

(** Distinct integers of a range are no more than the range has. *)
Lemma NoDup_range_length (l : list Z) (n : Z) :
  0 <= n -> NoDup l -> Forall (fun k => 0 <= k < n) l -> Z.of_nat (length l) <= n.
Proof.
  intros Hn Hnd Hall.
  assert (l ⊆+ seqZ 0 n) as Hsub.
  { apply NoDup_submseteq; [done|]. intros x Hx.
    rewrite Forall_forall in Hall. apply elem_of_seqZ. specialize (Hall x Hx). lia. }
  apply submseteq_length in Hsub. rewrite length_seqZ in Hsub. lia.
Qed.

(** ** Rotation *)

Lemma with_buffer_same (m : MicroBatchManager) :
  with_buffer m (mb_description_buffer m) = m.
Proof. by destruct m. Qed.

Lemma next_idx (m : MicroBatchManager) :
  buffer_size m <> 0 ->
  next m
  = (mkManager (stage m) (micro_batch_size m) (buffer_size m) (max_input_len m)
       (max_output_len m) (cache_manager_list m) (mb_description_buffer m)
       (new_tokens_buffer m) ((idx m + 1) mod buffer_size m), Ok tt).
Proof.
  intros Hbs. unfold next. by destruct (Z.eqb_spec (buffer_size m) 0).
Qed.

Lemma next_n_idx (n : nat) (m : MicroBatchManager) :
  0 < buffer_size m -> 0 <= idx m < buffer_size m ->
  next_n n m
  = mkManager (stage m) (micro_batch_size m) (buffer_size m) (max_input_len m)
      (max_output_len m) (cache_manager_list m) (mb_description_buffer m)
      (new_tokens_buffer m) ((idx m + Z.of_nat n) mod buffer_size m).
Proof.
  revert m. induction n as [|n IH]; intros m Hbs Hidx.
  - simpl. rewrite Z.add_0_r, Z.mod_small by done. by destruct m.
  - simpl next_n. rewrite next_idx by lia. simpl fst.
    rewrite IH; simpl; [|done|by apply Z.mod_pos_bound].
    f_equal. rewrite Z.add_mod_idemp_l by lia. f_equal. lia.
Qed.

(** X1. Rotation is cyclic: with a positive [buffer_size] and the cursor
    in range, [buffer_size] calls of [next] bring the manager back to where
    it was, and fewer calls (at least one) do not. *)
Theorem next_cyclic (m : MicroBatchManager) :
  0 < buffer_size m -> 0 <= idx m < buffer_size m ->
  next_n (Z.to_nat (buffer_size m)) m = m
  /\ forall j : nat,
       (0 < j)%nat -> Z.of_nat j < buffer_size m -> idx (next_n j m) <> idx m.
Proof.
  intros Hbs Hidx. split.
  - rewrite next_n_idx by done. rewrite Z2Nat.id by lia.
    replace (idx m + buffer_size m) with (idx m + 1 * buffer_size m) by lia.
    rewrite Z.mod_add, Z.mod_small by lia. by destruct m.
  - intros j Hj Hlt. rewrite next_n_idx by done. simpl.
    destruct (Z_lt_le_dec (idx m + Z.of_nat j) (buffer_size m)) as [Hs|Hl].
    + rewrite Z.mod_small by lia. lia.
    + replace (idx m + Z.of_nat j)
        with (idx m + Z.of_nat j - buffer_size m + 1 * buffer_size m) by lia.
      rewrite Z.mod_add, Z.mod_small by lia. lia.
Qed.

(** X2. [next] raises exactly when [buffer_size] is 0, and then changes
    nothing; with a positive [buffer_size] it puts the cursor into
    [0, buffer_size) wherever it was, and leaves the buffer and the cache
    managers alone. *)
Theorem next_range (m : MicroBatchManager) :
  (buffer_size m = 0 -> next m = (m, Raise ZeroDivisionError))
  /\ (buffer_size m <> 0 -> snd (next m) = Ok tt)
  /\ (0 < buffer_size m -> 0 <= idx (fst (next m)) < buffer_size m)
  /\ mb_description_buffer (fst (next m)) = mb_description_buffer m
  /\ cache_manager_list (fst (next m)) = cache_manager_list m.
Proof.
  repeat split.
  - intros Hz. unfold next. by rewrite Hz.
  - intros Hnz. by rewrite next_idx.
  - rewrite next_idx by lia. simpl. apply Z.mod_pos_bound. lia.
  - rewrite next_idx by lia. simpl. apply Z.mod_pos_bound. lia.
  - unfold next. by destruct (Z.eqb (buffer_size m) 0).
  - unfold next. by destruct (Z.eqb (buffer_size m) 0).
Qed.


(** ** What every reachable manager satisfies *)

(** The cursor is in range, and the buffer holds each position at most
    once and only positions of the range. *)
Definition buffer_ok (m : MicroBatchManager) : Prop :=
  0 <= idx m < buffer_size m
  /\ NoDup (Dict.keys (mb_description_buffer m))
  /\ Forall (fun k => 0 <= k < buffer_size m) (Dict.keys (mb_description_buffer m)).

Lemma buffer_ok_set (m : MicroBatchManager) (d : Description) :
  buffer_ok m ->
  buffer_ok (with_buffer m (Dict.set (idx m) d (mb_description_buffer m))).
Proof.
  intros (Hidx & Hnd & Hall). unfold buffer_ok. simpl. repeat split; try tauto.
  - by apply dict_keys_set_NoDup.
  - rewrite dict_keys_set.
    destruct (Dict.get (idx m) (mb_description_buffer m)); [done|].
    apply Forall_app. split; [done|]. by apply Forall_singleton.
Qed.

Lemma reachable_buffer_size_ok (m : MicroBatchManager) :
  reachable m -> 0 < buffer_size m -> buffer_ok m.
Proof.
  induction 1 as [| m inputs_dict _ IH | m new_token _ IH | m _ IH | m _ IH];
    intros Hbs.
  - unfold buffer_ok. simpl in *. repeat split; try lia; constructor.
  - unfold add_description in *.
    destruct (new_description m inputs_dict) as [d|e]; simpl in *; [|auto].
    apply buffer_ok_set. auto.
  - unfold step in *. destruct (cur_description m) as [d|]; simpl in *; [|auto].
    destruct (update d new_token) as [d' r].
    assert (buffer_ok (with_buffer m (Dict.set (idx m) d' (mb_description_buffer m))))
      by (apply buffer_ok_set; destruct r; auto).
    by destruct r.
  - assert (buffer_size (fst (next m)) = buffer_size m) as Hsame
      by (unfold next; by destruct (Z.eqb (buffer_size m) 0)).
    rewrite Hsame in Hbs. destruct (IH Hbs) as (Hidx & Hnd & Hall).
    rewrite next_idx by lia. unfold buffer_ok. simpl. repeat split; try done.
    + apply Z.mod_pos_bound. lia.
    + apply Z.mod_pos_bound. lia.
  - destruct (IH Hbs) as (Hidx & _ & _). unfold buffer_ok. simpl.
    repeat split; try tauto; constructor.
Qed.

(** X3. For every manager built from the constructor with a positive
    [buffer_size] by [add_description], [step], [next] and [clear], the
    cursor stays in [0, buffer_size), every position in the buffer is in
    that range and occurs once, and so the buffer never holds more than
    [buffer_size] descriptions. *)
Theorem reachable_bounds (m : MicroBatchManager) :
  reachable m -> 0 < buffer_size m ->
  0 <= idx m < buffer_size m
  /\ NoDup (Dict.keys (mb_description_buffer m))
  /\ Forall (fun k => 0 <= k < buffer_size m) (Dict.keys (mb_description_buffer m))
  /\ Z.of_nat (length (mb_description_buffer m)) <= buffer_size m.
Proof.
  intros Hreach Hbs.
  destruct (reachable_buffer_size_ok m Hreach Hbs) as (Hidx & Hnd & Hall).
  repeat split; try tauto.
  replace (length (mb_description_buffer m))
    with (length (Dict.keys (mb_description_buffer m)))
    by apply length_map.
  apply NoDup_range_length; [lia|done|done].
Qed.

(** ** [clear] *)

(** X4. [clear] can be called in any state: afterwards the buffer is
    empty, so the current state is [PREFILL], the round does not count as
    done and nothing is exported; every cache manager has been released
    once, in place; the cursor is kept, so the next description that is
    added goes to the position the cursor was left at, and the visiting
    order starts there. *)
Theorem clear_resets (m : MicroBatchManager) :
  cur_state (clear m) = Ok PREFILL
  /\ is_micro_batch_done (clear m) = Ok false
  /\ export_new_tokens (clear m) = Ok []
  /\ cache_manager_list (clear m) = map free_all (cache_manager_list m)
  /\ length (cache_manager_list (clear m)) = length (cache_manager_list m)
  /\ idx (clear m) = idx m
  /\ forall inputs_dict : option (gmap string Tensor),
       snd (add_description (clear m) inputs_dict) = Ok tt ->
       Dict.keys (mb_description_buffer (fst (add_description (clear m) inputs_dict)))
       = [idx m].
Proof.
  repeat split.
  - simpl. apply length_map.
  - intros inputs_dict. unfold add_description.
    by destruct (new_description (clear m) inputs_dict).
Qed.

(** ** [cur_state] *)

Lemma state_of_not_PREFILL (c : result Z) (target : Z) :
  state_of c target <> Ok PREFILL.
Proof.
  unfold state_of. destruct c as [c|e]; simpl; [|done].
  by repeat case_match.
Qed.

(** X5. [cur_state] is [PREFILL] exactly when nothing is stored at the
    current position: the state of a description is never [PREFILL]. *)
Theorem cur_state_PREFILL (m : MicroBatchManager) :
  cur_state m = Ok PREFILL <-> cur_description m = None.
Proof.
  unfold cur_state. destruct (cur_description m) as [d|]; [|done].
  split; [|done]. intros Hs. by apply state_of_not_PREFILL in Hs.
Qed.

(** ** [add_description] on a free position *)

(** X6. On a position where nothing is stored, a successful
    [add_description] puts the new description last in the visiting order,
    makes the buffer one longer, and leaves the cursor and the other
    positions as they were. *)
Theorem add_description_fresh
    (m : MicroBatchManager) (inputs_dict : option (gmap string Tensor))
    (d : Description) :
  cur_description m = None ->
  new_description m inputs_dict = Ok d ->
  add_description m inputs_dict
  = (with_buffer m (mb_description_buffer m ++ [(idx m, d)]), Ok tt)
  /\ cur_description (fst (add_description m inputs_dict)) = Some d
  /\ length (mb_description_buffer (fst (add_description m inputs_dict)))
     = S (length (mb_description_buffer m))
  /\ forall j, j <> idx m ->
       Dict.get j (mb_description_buffer (fst (add_description m inputs_dict)))
       = Dict.get j (mb_description_buffer m).
Proof.
  intros Hnone Hnew. unfold add_description. rewrite Hnew. simpl.
  unfold cur_description in *. repeat split.
  - by rewrite dict_set_absent.
  - apply dict_get_set_eq.
  - rewrite dict_set_absent by done. rewrite length_app. simpl. lia.
  - intros j Hj. by apply dict_get_set_ne.
Qed.

Lemma new_description_head (m : MicroBatchManager)
    (inputs_dict : option (gmap string Tensor)) (d : Description) :
  stage m = 0 -> new_description m inputs_dict = Ok d ->
  exists h,
    d = Head h /\ new_tokens h = None
    /\ target_length (head_base h) = mb_length (head_base h) + max_output_len m
    /\ exists batch ids mask,
         inputs_dict = Some batch
         /\ batch !! "input_ids"%string = Some ids
         /\ batch !! "attention_mask"%string = Some mask
         /\ mb_length (head_base h) = Z.of_nat (ncols ids)
         /\ input_ids h = ids /\ attn_mask h = mask.
Proof.
  intros Hstage. unfold new_description. rewrite Hstage. simpl.
  destruct (list_getitem (cache_manager_list m) (idx m)) as [cm|]; simpl;
    [|discriminate].
  destruct (HeadMicroBatchDescription_init _ _ _ _) as [h|] eqn:E; simpl;
    [|discriminate].
  intros [= <-].
  apply HeadMicroBatchDescription_init_Ok in E
    as (batch & ids & mask & st & -> & Hids & Hmask & _ & ->).
  eexists. repeat split. by exists batch, ids, mask.
Qed.

(** X7. On a first-stage manager, the state right after a successful
    [add_description] is fixed by [max_output_len] alone: [DONE] for 0,
    [COOLDOWN] for 1, [GENERATE] for every other value, negative ones
    included. *)
Theorem added_head_state
    (m : MicroBatchManager) (inputs_dict : option (gmap string Tensor)) :
  stage m = 0 ->
  snd (add_description m inputs_dict) = Ok tt ->
  cur_state (fst (add_description m inputs_dict))
  = Ok (if Z.eqb (max_output_len m) 0 then DONE
        else if Z.eqb (max_output_len m) 1 then COOLDOWN
        else GENERATE).
Proof.
  intros Hstage. unfold add_description.
  destruct (new_description m inputs_dict) as [d|e] eqn:E; simpl; [|discriminate].
  intros _. unfold cur_state, cur_description. simpl. rewrite dict_get_set_eq.
  destruct (new_description_head m inputs_dict d Hstage E)
    as (h & -> & Hnone & Htarget & _).
  unfold state, state_of. simpl. unfold head_cur_length. rewrite Hnone, Htarget.
  simpl.
  destruct (Z.eqb_spec (max_output_len m) 0), (Z.eqb_spec (max_output_len m) 1);
    repeat case_match; try done; lia.
Qed.


(** ** Constructors and their failures *)

(** X8. What the two constructors do with an input record that is
    present.  Without ["input_ids"] both raise [KeyError]; an exception of
    [init_from_batch] comes out of both; once [init_from_batch] has
    succeeded the body description is built, whether or not there is an
    ["attention_mask"], while the head description needs it and otherwise
    fails its assertion.  A description that is built has the column count
    of ["input_ids"] as [mb_length], [max_output_len] more as
    [target_length], and a head description starts without tokens. *)
Theorem init_outcome
    (batch : gmap string Tensor) (mil mol : Z) (cm : MemoryManager) :
  match batch !! "input_ids"%string with
  | None =>
      HeadMicroBatchDescription_init (Some batch) mil mol cm = Raise KeyError
      /\ BodyMicroBatchDescription_init (Some batch) mil mol cm = Raise KeyError
  | Some ids =>
      match init_from_batch batch mil mol cm with
      | Raise e =>
          HeadMicroBatchDescription_init (Some batch) mil mol cm = Raise e
          /\ BodyMicroBatchDescription_init (Some batch) mil mol cm = Raise e
      | Ok st =>
          let b := mkBase (Z.of_nat (ncols ids)) (Z.of_nat (ncols ids) + mol) st in
          BodyMicroBatchDescription_init (Some batch) mil mol cm = Ok (mkBody b)
          /\ HeadMicroBatchDescription_init (Some batch) mil mol cm
             = match batch !! "attention_mask"%string with
               | Some mask => Ok (mkHead b ids mask None)
               | None => Raise AssertionError
               end
      end
  end.
Proof.
  unfold HeadMicroBatchDescription_init, BodyMicroBatchDescription_init,
    MicroBatchDescription_init. simpl.
  destruct (batch !! "input_ids"%string) as [ids|]; simpl; [|done].
  destruct (init_from_batch batch mil mol cm) as [st|e]; simpl; [|done].
  split; [done|]. by destruct (batch !! "attention_mask"%string).
Qed.

Lemma list_getitem_out_of_range {A : Type} (l : list A) (i : Z) :
  Z.of_nat (length l) <= i \/ i < - Z.of_nat (length l) ->
  list_getitem l i = Raise IndexError.
Proof.
  intros Hi. unfold list_getitem. cbv zeta.
  destruct (Z.leb_spec 0 i).
  - destruct Hi as [Hi|Hi]; [|lia].
    rewrite lookup_ge_None_2 by lia. done.
  - destruct (Z.leb_spec (- Z.of_nat (length l)) i); [lia|done].
Qed.

Lemma list_getitem_in_range {A : Type} (l : list A) (i : Z) :
  - Z.of_nat (length l) <= i < Z.of_nat (length l) ->
  exists x, list_getitem l i = Ok x.
Proof.
  intros Hi. unfold list_getitem. cbv zeta.
  destruct (Z.leb_spec 0 i).
  - destruct (lookup_lt_is_Some_2 l (Z.to_nat i)) as [x ->]; [lia|]. by exists x.
  - destruct (Z.leb_spec (- Z.of_nat (length l)) i); [|lia].
    destruct (lookup_lt_is_Some_2 l (Z.to_nat (Z.of_nat (length l) + i)))
      as [x ->]; [lia|]. by exists x.
Qed.

(** X9. [add_description] looks up the cache manager of the current
    position before it builds anything: with the cursor outside the list
    of cache managers it raises [IndexError] whatever the inputs are, and
    with the cursor inside and the inputs absent it raises [TypeError], on
    every stage.  In both cases the manager is unchanged. *)
Theorem add_description_raises
    (m : MicroBatchManager) (inputs_dict : option (gmap string Tensor)) :
  (Z.of_nat (length (cache_manager_list m)) <= idx m
   \/ idx m < - Z.of_nat (length (cache_manager_list m)) ->
   add_description m inputs_dict = (m, Raise IndexError))
  /\ (- Z.of_nat (length (cache_manager_list m)) <= idx m
        < Z.of_nat (length (cache_manager_list m)) ->
      add_description m None = (m, Raise TypeError)).
Proof.
  unfold add_description, new_description. split.
  - intros Hi. by rewrite list_getitem_out_of_range.
  - intros Hi.
    destruct (list_getitem_in_range (cache_manager_list m) (idx m) Hi) as [cm ->].
    simpl. by destruct (Z.eqb (stage m) 0).
Qed.

(** ** [step] that changes nothing *)

Lemma step_same (m : MicroBatchManager) (d : Description)
    (new_token : option Tensor) (r : result unit) :
  cur_description m = Some d ->
  update d new_token = (d, r) ->
  step m new_token
  = (m, match r with Ok _ => state d | Raise e => Raise e end).
Proof.
  intros Hd Hup. unfold step. rewrite Hd, Hup.
  rewrite (dict_set_same (idx m) d) by done. rewrite with_buffer_same.
  destruct r; [|done]. unfold cur_state. by rewrite Hd.
Qed.

(** X10. [step] without a token leaves the manager as it is and returns
    the state of the current description, or raises what reading that state
    raises; on a body description this holds with any token, since its
    [update] does nothing. *)
Theorem step_without_effect
    (m : MicroBatchManager) (d : Description) (new_token : option Tensor) :
  cur_description m = Some d ->
  new_token = None \/ is_head d = false ->
  step m new_token = (m, state d).
Proof.
  intros Hd Hcase. destruct d as [h|b].
  - destruct Hcase as [->|Hb]; [|discriminate].
    assert (exists r, update (Head h) None = (Head h, r)
                      /\ match r with Ok _ => state (Head h) | Raise e => Raise e end
                         = state (Head h)) as (r & Hup & Hr).
    { simpl. unfold head_update.
      change (state (Head h)) with (head_state h).
      destruct (head_state h) as [s|e]; simpl.
      - rewrite andb_false_r. by exists (Ok tt).
      - by exists (Raise e). }
    rewrite (step_same m (Head h) None r Hd Hup). by rewrite Hr.
  - by rewrite (step_same m (Body b) new_token (Ok tt) Hd).
Qed.

(** X11. A token whose row count differs from that of the tokens a head
    description already holds is refused: [step] raises [RuntimeError]
    (from [torch.cat]) and the manager, the description's tokens and mask
    included, is unchanged. *)
Theorem step_row_mismatch
    (m : MicroBatchManager) (h : HeadMicroBatchDescription) (old t : Tensor) :
  cur_description m = Some (Head h) ->
  new_tokens h = Some old ->
  nrows old <> nrows t ->
  step m (Some t) = (m, Raise RuntimeError).
Proof.
  intros Hd Hold Hrows.
  apply (step_same m (Head h) (Some t) (Raise RuntimeError) Hd).
  simpl. unfold head_update, _update_newtokens, cat. rewrite Hold.
  by destruct (Nat.eqb_spec (nrows old) (nrows t)).
Qed.


(** ** [_remove_description] *)

(** X12. [_remove_description] raises [KeyError] and changes nothing when
    no description is stored at the current position.  Otherwise it takes
    that description out: the position is free again (the state there is
    [PREFILL]), the buffer is one shorter, and the other positions keep
    their descriptions. *)
Theorem remove_description_spec (m : MicroBatchManager) :
  NoDup (Dict.keys (mb_description_buffer m)) ->
  match cur_description m with
  | None => _remove_description m = (m, Raise KeyError)
  | Some d =>
      snd (_remove_description m) = Ok tt
      /\ cur_description (fst (_remove_description m)) = None
      /\ cur_state (fst (_remove_description m)) = Ok PREFILL
      /\ S (length (mb_description_buffer (fst (_remove_description m))))
         = length (mb_description_buffer m)
      /\ forall j, j <> idx m ->
           Dict.get j (mb_description_buffer (fst (_remove_description m)))
           = Dict.get j (mb_description_buffer m)
  end.
Proof.
  intros Hnd. unfold _remove_description, cur_description, cur_state, cur_description.
  destruct (Dict.get (idx m) (mb_description_buffer m)) as [d|] eqn:E; [|done].
  simpl. rewrite dict_get_remove_eq by done. repeat split.
  - by apply (dict_length_remove (idx m) d).
  - intros j Hj. by apply dict_get_remove_ne.
Qed.

(** X13. Adding a description at a free position and removing it again
    gives back the manager one started from. *)
Theorem add_then_remove
    (m : MicroBatchManager) (inputs_dict : option (gmap string Tensor)) :
  cur_description m = None ->
  snd (add_description m inputs_dict) = Ok tt ->
  _remove_description (fst (add_description m inputs_dict)) = (m, Ok tt).
Proof.
  intros Hnone. unfold add_description.
  destruct (new_description m inputs_dict) as [d|e]; simpl; [|discriminate].
  intros _. unfold _remove_description. simpl. rewrite dict_get_set_eq.
  unfold cur_description in Hnone. rewrite dict_remove_set_absent by done.
  by destruct m.
Qed.

(** ** [export_new_tokens] *)

(** X14. [export_new_tokens] returns a list exactly when every
    description in the buffer is a head description that has received a
    token; otherwise it raises, and what it raises is always
    [AttributeError].  So it cannot be called on a first-stage manager
    between [add_description] and the first token. *)
Theorem export_new_tokens_defined (m : MicroBatchManager) :
  (is_Ok (export_new_tokens m) <->
   Forall (fun d => is_Some (tokens_of d)) (Dict.values (mb_description_buffer m)))
  /\ (export_new_tokens m = Raise AttributeError <->
      Exists (fun d => tokens_of d = None) (Dict.values (mb_description_buffer m))).
Proof.
  unfold export_new_tokens.
  generalize (Dict.values (mb_description_buffer m)). intros ds.
  assert (Forall (fun d => is_Some (tokens_of d)) ds
          \/ Exists (fun d => tokens_of d = None) ds) as Hcases.
  { induction ds as [|d ds IH]; [left; constructor|].
    destruct (tokens_of d) as [t|] eqn:E; [|right; by apply Exists_cons_hd].
    destruct IH as [IH|IH]; [left|right; by apply Exists_cons_tl].
    constructor; [by rewrite E|done]. }
  assert (Forall (fun d => is_Some (tokens_of d)) ds ->
          Exists (fun d => tokens_of d = None) ds -> False) as Hexcl.
  { rewrite Forall_forall, Exists_exists. intros Hall (d & Hd & Hnone).
    destruct (Hall d Hd) as [t Ht]. congruence. }
  assert (Forall (fun d => is_Some (tokens_of d)) ds -> is_Ok (export_loop ds []))
    as Hok.
  { intros Hall.
    assert (exists ts, map tokens_of ds = map Some ts) as [ts Hts].
    { clear Hcases Hexcl. induction Hall as [|d ds [t Ht] _ [ts IH]].
      - by exists [].
      - exists (t :: ts). simpl. by rewrite Ht, IH. }
    rewrite (export_loop_Ok ds ts [] Hts). by eexists. }
  split; split.
  - intros [rows Hrows]. destruct Hcases as [|Hex]; [done|].
    rewrite export_loop_Raise in Hrows by done. discriminate.
  - done.
  - intros Hraise. destruct Hcases as [Hall|]; [|done].
    destruct (Hok Hall) as [rows Hrows]. congruence.
  - apply export_loop_Raise.
Qed.


(** ** Head descriptions, continued *)

Lemma state_of_Ok (c : result Z) (target : Z) (s : Status) :
  state_of c target = Ok s -> exists c', c = Ok c'.
Proof. destruct c as [c'|e]; [eauto|discriminate]. Qed.

Lemma update_seq_cons (h : HeadMicroBatchDescription) (a : option Tensor)
    (args : list (option Tensor)) :
  update_seq h (a :: args) = update_seq (fst (head_update h a)) args.
Proof. done. Qed.

(** An accepted token moves the length forward by its number of columns. *)
Lemma head_update_Ok_length (h : HeadMicroBatchDescription) (t : Tensor) (c : Z) :
  snd (head_update h (Some t)) = Ok tt ->
  head_cur_length h = Ok c ->
  head_cur_length (fst (head_update h (Some t))) = Ok (c + Z.of_nat (ncols t)).
Proof.
  intros Hok Hlen.
  rewrite (head_cur_length_ext _ (fst (_update_newtokens h t))).
  2: { rewrite (proj1 (head_update_base h (Some t))).
       symmetry. apply _update_newtokens_frame. }
  2: { apply head_update_tokens. }
  pose proof (head_update_Some h t) as H.
  pose proof (_update_newtokens_count h t) as Hcount.
  pose proof (_update_newtokens_frame h t) as [Hbase _].
  destruct (_update_newtokens h t) as [h0 [[]|e]] eqn:E0; simpl in *.
  - destruct (head_state h0) as [s|e] eqn:Hs.
    + apply state_of_Ok in Hs as [c' Hc']. rewrite Hc'. f_equal.
      apply head_cur_length_Ok in Hlen, Hc'. rewrite Hbase in Hc'.
      assert (gen_count h0 = (gen_count h + ncols t)%nat) as Hgc; [|lia].
      clear Hcount Hlen Hc'. unfold _update_newtokens, gen_count in *.
      destruct (new_tokens h) as [old|].
      * destruct (cat old t) as [t'|] eqn:Ecat; [|discriminate].
        injection E0 as <-. simpl. by apply cat_Ok_shape in Ecat as (_ & _ & ->).
      * by injection E0 as <-.
    + rewrite H in Hok. discriminate.
  - destruct H as [H _]. rewrite H in Hok. discriminate.
Qed.

(** X15. The current length counts token columns: after a run of accepted
    tokens it has grown by the total number of their columns, whatever the
    width of each token. *)
Theorem cur_length_counts_columns
    (h h' : HeadMicroBatchDescription) (toks : list Tensor) (ss : list Status) (c : Z) :
  head_cur_length h = Ok c ->
  observe h toks = Ok (h', ss) ->
  head_cur_length h' = Ok (c + Z.of_nat (sum_list_with ncols toks)).
Proof.
  revert h ss c. induction toks as [|t toks IH]; intros h ss c Hlen Hobs.
  - injection Hobs as <- <-. simpl. by rewrite Z.add_0_r.
  - simpl in Hobs. pose proof (head_update_Ok_length h t c) as Hstep.
    destruct (head_update h (Some t)) as [h1 r]. simpl in *.
    destruct r as [[]|e]; simpl in Hobs; [|discriminate].
    destruct (head_state h1) as [s|e]; simpl in Hobs; [|discriminate].
    destruct (observe h1 toks) as [[h2 ss2]|e] eqn:Hrun; simpl in Hobs;
      [|discriminate].
    injection Hobs as <- <-.
    rewrite (IH h1 ss2 _ (Hstep eq_refl Hlen) Hrun). f_equal. lia.
Qed.

Lemma head_state_past_target (h : HeadMicroBatchDescription) (c : Z) (s : Status) :
  head_cur_length h = Ok c -> target_length (head_base h) < c ->
  head_state h = Ok s -> s = GENERATE.
Proof.
  unfold head_state, state_of. intros -> Hc. simpl.
  destruct (Z.eqb_spec c (target_length (head_base h))); [lia|].
  destruct (Z.eqb_spec c (target_length (head_base h) - 1)); [lia|].
  by intros [= <-].
Qed.

Lemma head_state_DONE_length (h : HeadMicroBatchDescription) :
  head_state h = Ok DONE -> head_cur_length h = Ok (target_length (head_base h)).
Proof.
  unfold head_state, state_of. destruct (head_cur_length h) as [c|]; simpl;
    [|discriminate].
  destruct (Z.eqb_spec c (target_length (head_base h))) as [->|]; [done|].
  by destruct (Z.eqb c (target_length (head_base h) - 1)).
Qed.

(** X16. Nothing stops a token after [DONE]: if such an update is accepted
    (and the token has a column), the state read after it is [GENERATE]
    again and the mask has grown by one; and from then on no sequence of
    updates brings the description back to [DONE] or [COOLDOWN]. *)
Theorem token_after_DONE (h : HeadMicroBatchDescription) (t : Tensor) :
  head_state h = Ok DONE ->
  snd (head_update h (Some t)) = Ok tt ->
  (0 < ncols t)%nat ->
  head_state (fst (head_update h (Some t))) = Ok GENERATE
  /\ ncols (attn_mask (fst (head_update h (Some t)))) = (ncols (attn_mask h) + 1)%nat
  /\ forall (args : list (option Tensor)) (s : Status),
       head_state (update_seq (fst (head_update h (Some t))) args) = Ok s ->
       s = GENERATE.
Proof.
  intros Hdone Hok Hcols.
  pose proof (head_update_Ok_length h t _ Hok (head_state_DONE_length h Hdone)) as Hlen.
  pose proof (proj1 (head_update_base h (Some t))) as Hbase.
  set (h1 := fst (head_update h (Some t))) in *.
  assert (forall (args : list (option Tensor)) (s : Status),
            head_state (update_seq h1 args) = Ok s -> s = GENERATE) as Hafter.
  { intros args s Hs. pose proof Hs as Hs'.
    apply state_of_Ok in Hs' as [c' Hc'].
    apply (head_state_past_target (update_seq h1 args) c'); [done| |done].
    rewrite update_seq_base, Hbase.
    apply head_cur_length_Ok in Hc', Hlen. rewrite update_seq_base in Hc'.
    pose proof (gen_count_update_seq args h1). lia. }
  assert (head_state h1 = Ok GENERATE) as Hgen.
  { unfold head_state. rewrite Hlen, Hbase. unfold state_of. simpl.
    destruct (Z.eqb_spec (target_length (head_base h) + Z.of_nat (ncols t))
                (target_length (head_base h))); [lia|].
    destruct (Z.eqb_spec (target_length (head_base h) + Z.of_nat (ncols t))
                (target_length (head_base h) - 1)); [lia|done]. }
  repeat split; [done| |done].
  pose proof (head_update_mask h t) as Hm. simpl in Hm. fold h1 in Hm.
  rewrite Hgen in Hm. by apply Hm.
Qed.


Lemma ones_rows (l : list (list Z)) :
  zip_with app l (replicate (length l) [1]) = map (fun r => r ++ [1]) l.
Proof. induction l as [|r l IH]; simpl; [done|]. by rewrite IH. Qed.

(** The mask after an accepted token that does not close the sequence. *)
Lemma head_update_mask_grid (h : HeadMicroBatchDescription) (t : Tensor) (s : Status) :
  snd (head_update h (Some t)) = Ok tt ->
  head_state (fst (head_update h (Some t))) = Ok s -> s <> DONE ->
  attn_mask (fst (head_update h (Some t)))
  = mkTensor (nrows (attn_mask h)) (ncols (attn_mask h) + 1)
      (zip_with app (tolist (attn_mask h)) (replicate (nrows (attn_mask h)) [1])).
Proof.
  intros Hok Hs Hne.
  pose proof (head_update_Some h t) as H.
  pose proof (_update_newtokens_frame h t) as [_ Hm].
  destruct (_update_newtokens h t) as [h0 [[]|e]]; simpl in *.
  - destruct (head_state h0) as [s0|e] eqn:Hs0.
    + assert (s0 = s) as ->.
      { destruct s0; rewrite H in Hs; simpl in Hs;
          rewrite ?head_state_after_mask in Hs; congruence. }
      assert (head_update h (Some t) = _update_attnmask h0) as -> by by destruct s.
      unfold _update_attnmask. rewrite cat_ones_column. simpl. by rewrite Hm.
    + rewrite H in Hok. discriminate.
  - destruct H as [H _]. rewrite H in Hok. discriminate.
Qed.

(** X17. The mask is only ever extended, and with ones: after [n]
    accepted tokens none of which is read as [DONE], every row of the
    attention mask is the row it was followed by [n] ones; the number of
    rows is the same and the grid still agrees with its shape. *)
Theorem attn_mask_rows
    (h h' : HeadMicroBatchDescription) (toks : list Tensor) (ss : list Status) :
  wf (attn_mask h) ->
  observe h toks = Ok (h', ss) ->
  Forall (fun s => s <> DONE) ss ->
  tolist (attn_mask h')
  = map (fun r => r ++ replicate (length toks) 1) (tolist (attn_mask h))
  /\ nrows (attn_mask h') = nrows (attn_mask h)
  /\ wf (attn_mask h').
Proof.
  revert h ss. induction toks as [|t toks IH]; intros h ss Hwf Hobs Hss.
  - injection Hobs as <- <-. simpl. split; [|by split].
    rewrite <- (map_id (tolist (attn_mask h))) at 1.
    apply map_ext. intros r. by rewrite app_nil_r.
  - simpl in Hobs. pose proof (head_update_mask_grid h t) as Hgrid.
    destruct (head_update h (Some t)) as [h1 r]. simpl in *.
    destruct r as [[]|e]; simpl in Hobs; [|discriminate].
    destruct (head_state h1) as [s|e]; simpl in Hobs; [|discriminate].
    destruct (observe h1 toks) as [[h2 ss2]|e] eqn:Hrun; simpl in Hobs;
      [|discriminate].
    injection Hobs as <- <-. apply Forall_cons in Hss as [Hs Hss].
    specialize (Hgrid s eq_refl eq_refl Hs).
    destruct Hwf as [Hlen Hrows].
    assert (wf (attn_mask h1)) as Hwf1.
    { rewrite Hgrid. unfold wf. simpl. rewrite <- Hlen, ones_rows. split.
      - apply length_map.
      - apply Forall_forall. intros r Hr.
        change (map ?f ?l) with (f <$> l) in Hr.
        apply list_elem_of_fmap in Hr as (r0 & -> & Hr0).
        rewrite Forall_forall in Hrows. rewrite length_app, (Hrows r0 Hr0).
        simpl. lia. }
    destruct (IH h1 ss2 Hwf1 Hrun Hss) as (Hlist & Hnrows & Hwf2).
    rewrite Hlist, Hnrows, Hgrid. simpl. rewrite <- Hlen, ones_rows.
    split; [|by split].
    rewrite map_map. apply map_ext. intros r. by rewrite <- app_assoc.
Qed.

Lemma head_update_mask_step (h : HeadMicroBatchDescription) (a : option Tensor) :
  nrows (attn_mask (fst (head_update h a))) = nrows (attn_mask h)
  /\ (ncols (attn_mask h) <= ncols (attn_mask (fst (head_update h a)))
      <= ncols (attn_mask h) + 1)%nat.
Proof.
  destruct a as [t|]; [|rewrite head_update_None; lia].
  pose proof (head_update_Some h t) as H.
  pose proof (_update_newtokens_frame h t) as [_ Hm].
  destruct (_update_newtokens h t) as [h0 [[]|e]]; simpl in *.
  - destruct (head_state h0) as [s|e].
    + assert (head_update h (Some t) = (h0, Ok tt)
              \/ head_update h (Some t) = _update_attnmask h0) as [->| ->]
        by (destruct s; auto).
      * simpl. rewrite Hm. lia.
      * destruct (_update_attnmask_Ok h0) as (m & -> & Hc & Hr). simpl.
        rewrite Hc, Hr, Hm. lia.
    + rewrite H. simpl. rewrite Hm. lia.
  - destruct H as [-> _]. simpl. lia.
Qed.

(** X18. What [update] never does, over any sequence of calls with any
    arguments and outcomes: it never changes [mb_length], [target_length],
    [infer_state] or [input_ids], never changes the number of rows of the
    mask, never shortens the mask, and lengthens it by at most one column
    per call. *)
Theorem update_frame (h : HeadMicroBatchDescription) (args : list (option Tensor)) :
  head_base (update_seq h args) = head_base h
  /\ input_ids (update_seq h args) = input_ids h
  /\ nrows (attn_mask (update_seq h args)) = nrows (attn_mask h)
  /\ (ncols (attn_mask h) <= ncols (attn_mask (update_seq h args))
      <= ncols (attn_mask h) + length args)%nat.
Proof.
  revert h. induction args as [|a args IH]; intros h.
  - unfold update_seq. simpl. repeat split; lia.
  - rewrite update_seq_cons.
    destruct (IH (fst (head_update h a))) as (Hb & Hi & Hr & Hc).
    destruct (head_update_base h a) as [Hb1 Hi1].
    destruct (head_update_mask_step h a) as [Hr1 Hc1].
    rewrite Hb, Hi, Hr, Hb1, Hi1, Hr1. simpl length. repeat split; lia.
Qed.

Lemma head_state_no_rows (h : HeadMicroBatchDescription) (t : Tensor) :
  new_tokens h = Some t -> nrows t = O -> head_state h = Raise IndexError.
Proof.
  intros Ht Hr. unfold head_state, head_cur_length, len_row0. by rewrite Ht, Hr.
Qed.

Lemma no_rows_update (h : HeadMicroBatchDescription) (a : option Tensor) :
  (exists t, new_tokens h = Some t /\ nrows t = O) ->
  exists t', new_tokens (fst (head_update h a)) = Some t' /\ nrows t' = O.
Proof.
  intros (t & Ht & Hr). destruct a as [x|]; [|rewrite head_update_None; eauto].
  rewrite head_update_tokens. unfold _update_newtokens. rewrite Ht.
  destruct (cat t x) as [t'|e] eqn:E; simpl; [|eauto].
  exists t'. split; [done|]. apply cat_Ok_shape in E as (-> & _ & _). done.
Qed.

Lemma no_rows_update_seq (args : list (option Tensor)) (h : HeadMicroBatchDescription) :
  (exists t, new_tokens h = Some t /\ nrows t = O) ->
  exists t', new_tokens (update_seq h args) = Some t' /\ nrows t' = O.
Proof.
  revert h. induction args as [|a args IH]; intros h Hh; [done|].
  rewrite update_seq_cons. apply IH. by apply no_rows_update.
Qed.

(** X19. A failure of [update] can leave its mark: a first token without
    rows is stored before the state is read, the read then raises
    [IndexError], and from then on, whatever further updates are made,
    reading the state of the description raises [IndexError]. *)
Theorem update_token_without_rows
    (h : HeadMicroBatchDescription) (t : Tensor) :
  new_tokens h = None -> nrows t = O ->
  head_update h (Some t)
  = (mkHead (head_base h) (input_ids h) (attn_mask h) (Some t), Raise IndexError)
  /\ forall args : list (option Tensor),
       head_state (update_seq (fst (head_update h (Some t))) args)
       = Raise IndexError.
Proof.
  intros Hnone Hrows.
  assert (head_update h (Some t)
          = (mkHead (head_base h) (input_ids h) (attn_mask h) (Some t),
             Raise IndexError)) as Hup.
  { unfold head_update, _update_newtokens. rewrite Hnone.
    by rewrite (head_state_no_rows _ t). }
  split; [done|]. rewrite Hup. simpl. intros args.
  destruct (no_rows_update_seq args
              (mkHead (head_base h) (input_ids h) (attn_mask h) (Some t)))
    as (t' & Ht' & Hr'); [by exists t|].
  by apply (head_state_no_rows _ t').
Qed.


(** ** One description from creation to export *)

Lemma observe_update_seq (toks : list Tensor) (h h' : HeadMicroBatchDescription)
    (ss : list Status) :
  observe h toks = Ok (h', ss) -> h' = update_seq h (map Some toks).
Proof.
  revert h ss. induction toks as [|t toks IH]; intros h ss Hobs.
  - by injection Hobs as <- <-.
  - simpl in Hobs. simpl map. rewrite update_seq_cons.
    destruct (head_update h (Some t)) as [h1 r]. simpl in *.
    destruct r as [[]|e]; simpl in Hobs; [|discriminate].
    destruct (head_state h1) as [s|e]; simpl in Hobs; [|discriminate].
    destruct (observe h1 toks) as [[h2 ss2]|e] eqn:Hrun; simpl in Hobs;
      [|discriminate].
    injection Hobs as <- <-. by apply (IH h1 ss2).
Qed.

(** Stepping the manager is updating the description under the cursor. *)
Lemma step_all_observe (toks : list Tensor) (m : MicroBatchManager)
    (h h' : HeadMicroBatchDescription) (ss : list Status) :
  cur_description m = Some (Head h) ->
  observe h toks = Ok (h', ss) ->
  step_all m toks
  = (with_buffer m (Dict.set (idx m) (Head h') (mb_description_buffer m)), Ok ss).
Proof.
  revert m h ss. induction toks as [|t toks IH]; intros m h ss Hcur Hobs.
  - injection Hobs as <- <-. simpl.
    rewrite (dict_set_same (idx m) (Head h)) by done. by rewrite with_buffer_same.
  - simpl in Hobs. simpl step_all. unfold step. rewrite Hcur. simpl update.
    destruct (head_update h (Some t)) as [h1 r]. simpl in *.
    destruct r as [[]|e]; simpl in Hobs; [|discriminate].
    destruct (head_state h1) as [s|e] eqn:Hs; simpl in Hobs; [|discriminate].
    destruct (observe h1 toks) as [[h2 ss2]|e] eqn:Hrun; simpl in Hobs;
      [|discriminate].
    injection Hobs as <- <-.
    set (m1 := with_buffer m (Dict.set (idx m) (Head h1) (mb_description_buffer m))).
    assert (cur_description m1 = Some (Head h1)) as Hcur1 by apply dict_get_set_eq.
    unfold cur_state. rewrite Hcur1.
    change (state (Head h1)) with (head_state h1). rewrite Hs.
    rewrite (IH m1 h1 ss2 Hcur1 Hrun). simpl. by rewrite dict_set_set.
Qed.

(** X20. A whole round of one description.  On a first-stage manager with
    an empty buffer and [max_output_len = k >= 1], after a successful
    [add_description] and [k] [step]s with token columns of a non-empty
    batch, every step succeeds; the states read (before the first step and
    after each) are [GENERATE] [k - 1] times, [COOLDOWN], [DONE];
    [is_micro_batch_done] answers [True]; and [export_new_tokens] returns
    one row per batch row, row [i] listing the [i]-th id of each token
    column in the order of the steps. *)
Theorem round_of_one
    (m : MicroBatchManager) (inputs_dict : option (gmap string Tensor))
    (cols : list (list Z)) (b : nat) :
  stage m = 0 ->
  mb_description_buffer m = [] ->
  snd (add_description m inputs_dict) = Ok tt ->
  1 <= max_output_len m ->
  Z.of_nat (length cols) = max_output_len m ->
  (0 < b)%nat ->
  Forall (fun col => length col = b) cols ->
  exists (s0 : Status) (ss : list Status) (m' : MicroBatchManager)
         (rows : list (list Z)),
    cur_state (fst (add_description m inputs_dict)) = Ok s0
    /\ step_all (fst (add_description m inputs_dict)) (map column cols) = (m', Ok ss)
    /\ s0 :: ss
       = replicate (Z.to_nat (max_output_len m - 1)) GENERATE ++ [COOLDOWN; DONE]
    /\ cur_state m' = Ok DONE
    /\ is_micro_batch_done m' = Ok true
    /\ export_new_tokens m' = Ok rows
    /\ length rows = b
    /\ forall i, (i < b)%nat -> rows !! i = Some (map (fun col => nth i col 0) cols).
Proof.
  intros Hstage Hempty Hadd Hk Hlen Hb Hall.
  unfold add_description in *.
  destruct (new_description m inputs_dict) as [d|e] eqn:Hnew; simpl in Hadd;
    [|discriminate].
  destruct (new_description_head m inputs_dict d Hstage Hnew)
    as (h & -> & Hnone & Htarget & _).
  simpl fst. rewrite Hempty. simpl Dict.set.
  set (m1 := with_buffer m [(idx m, Head h)]).
  assert (cur_description m1 = Some (Head h)) as Hcur1.
  { unfold cur_description, m1. simpl. by rewrite Z.eqb_refl. }
  assert (length cols = S (Z.to_nat (max_output_len m - 1))) as Hn by lia.
  assert (Forall (fun t => nrows t = b /\ ncols t = 1%nat) (map column cols)) as Hcols.
  { clear -Hall. induction Hall as [|col cols Hcol _ IH]; simpl; constructor; auto. }
  destruct (observe_countdown b (map column cols) Hb Hcols h)
    as (h' & Hobs & Hbase & Hfinal).
  { unfold tokens_rows. by rewrite Hnone. }
  { unfold gen_count. rewrite Hnone, length_map, Htarget. lia. }
  rewrite length_map in Hobs.
  assert (head_cur_length h' = Ok (target_length (head_base h))) as Hlen'.
  { apply Hfinal. destruct cols; [simpl in Hn; lia|done]. }
  destruct (tokens_in_generation_order b cols h Hnone Hall) as (t & Ht & Hgrid).
  { destruct cols; [simpl in Hn; lia|done]. }
  apply observe_update_seq in Hobs as Hseq. rewrite map_map in Hseq.
  rewrite <- Hseq in Ht.
  exists (match length cols with S O => COOLDOWN | _ => GENERATE end),
    (countdown (length cols)), (with_buffer m1 [(idx m, Head h')]), (tolist t).
  assert (head_state h' = Ok DONE) as Hdone.
  { unfold head_state. rewrite Hlen', Hbase. unfold state_of. simpl.
    by rewrite Z.eqb_refl. }
  split; [|split; [|split; [|split; [|split; [|split; [|split]]]]]].
  - unfold cur_state. rewrite Hcur1. change (state (Head h)) with (head_state h).
    unfold head_state, head_cur_length. rewrite Hnone.
    rewrite (state_of_countdown _ _ (length cols)) by lia.
    rewrite Hn. by destruct (Z.to_nat (max_output_len m - 1)).
  - rewrite (step_all_observe _ m1 h h' _ Hcur1 Hobs). simpl.
    by rewrite Z.eqb_refl.
  - rewrite Hn, <- countdown_shape. by destruct (Z.to_nat (max_output_len m - 1)).
  - unfold cur_state, cur_description. simpl. by rewrite Z.eqb_refl.
  - unfold is_micro_batch_done. simpl.
    change (state (Head h')) with (head_state h'). by rewrite Hdone.
  - unfold export_new_tokens. simpl. by rewrite Ht.
  - apply Hgrid.
  - apply Hgrid.
Qed.

(** The inference state of a description that was built is the one
    [init_from_batch] returned. *)
Lemma built_infer_state
    (batch : gmap string Tensor) (mil mol : Z) (cm : MemoryManager) :
  (forall h, HeadMicroBatchDescription_init (Some batch) mil mol cm = Ok h ->
     exists st, init_from_batch batch mil mol cm = Ok st
                /\ infer_state (head_base h) = st)
  /\ (forall b, BodyMicroBatchDescription_init (Some batch) mil mol cm = Ok b ->
        exists st, init_from_batch batch mil mol cm = Ok st
                   /\ infer_state (body_base b) = st).
Proof.
  unfold HeadMicroBatchDescription_init, BodyMicroBatchDescription_init,
    MicroBatchDescription_init. simpl.
  destruct (batch !! "input_ids"%string) as [ids|]; simpl; [|by split].
  destruct (init_from_batch batch mil mol cm) as [st|e]; simpl; [|by split].
  split.
  - destruct (batch !! "attention_mask"%string); simpl; [|done].
    intros h [= <-]. by exists st.
  - intros b [= <-]. by exists st.
Qed.

(** ** Grids stay rectangular *)

Lemma head_update_wf (h : HeadMicroBatchDescription) (a : option Tensor) :
  wf (attn_mask h) ->
  (forall t, new_tokens h = Some t -> wf t) ->
  (forall t, a = Some t -> wf t) ->
  wf (attn_mask (fst (head_update h a)))
  /\ (forall t, new_tokens (fst (head_update h a)) = Some t -> wf t).
Proof.
  intros Hmask Htok Ha. destruct a as [x|]; [|by rewrite head_update_None].
  split.
  - pose proof (head_update_Some h x) as H.
    pose proof (_update_newtokens_frame h x) as [_ Hm].
    destruct (_update_newtokens h x) as [h0 [[]|e]]; simpl in *.
    + destruct (head_state h0) as [s|e].
      * assert (head_update h (Some x) = (h0, Ok tt)
                \/ head_update h (Some x) = _update_attnmask h0) as [->| ->]
          by (destruct s; auto).
        -- simpl. by rewrite Hm.
        -- unfold _update_attnmask.
           destruct (cat (attn_mask h0) (ones_column (nrows (attn_mask h0))))
             as [c|e] eqn:E; simpl; [|by rewrite Hm].
           apply (wf_cat _ _ _ (eq_ind_r wf Hmask Hm) (wf_ones_column _) E).
      * rewrite H. simpl. by rewrite Hm.
    + by destruct H as [-> _].
  - rewrite head_update_tokens. unfold _update_newtokens.
    destruct (new_tokens h) as [old|] eqn:Hold.
    + destruct (cat old x) as [c|e] eqn:E; simpl.
      * intros t [= <-]. apply (wf_cat old x); auto.
      * rewrite Hold. auto.
    + simpl. intros t [= <-]. auto.
Qed.

(** X21. Over any sequence of [update] calls whose tokens are well-formed
    grids, the attention mask and the token grid of a head description stay
    well-formed: every row has as many entries as the shape says. *)
Theorem update_keeps_wf (h : HeadMicroBatchDescription) (args : list (option Tensor)) :
  wf (attn_mask h) ->
  (forall t, new_tokens h = Some t -> wf t) ->
  Forall (fun a => forall t, a = Some t -> wf t) args ->
  wf (attn_mask (update_seq h args))
  /\ (forall t, new_tokens (update_seq h args) = Some t -> wf t).
Proof.
  intros Hmask Htok Hargs. revert h Hmask Htok.
  induction Hargs as [|a args Ha _ IH]; intros h Hmask Htok; [done|].
  rewrite update_seq_cons.
  destruct (head_update_wf h a Hmask Htok Ha) as [Hmask1 Htok1]. by apply IH.
Qed.

(** ** More on the manager *)

(** X22. Adding a description reopens the round: on a first-stage manager
    with [max_output_len] other than 0, right after a successful
    [add_description] the round is not done, whatever the other
    descriptions are (their token grids having rows). *)
Theorem add_description_not_done
    (m : MicroBatchManager) (inputs_dict : option (gmap string Tensor)) :
  stage m = 0 ->
  max_output_len m <> 0 ->
  snd (add_description m inputs_dict) = Ok tt ->
  Forall has_rows (Dict.values (mb_description_buffer m)) ->
  is_micro_batch_done (fst (add_description m inputs_dict)) = Ok false.
Proof.
  intros Hstage Hk Hadd Hrows. unfold add_description in *.
  destruct (new_description m inputs_dict) as [d|e] eqn:Hnew; simpl in Hadd;
    [|discriminate].
  destruct (new_description_head m inputs_dict d Hstage Hnew)
    as (h & -> & Hnone & Htarget & _).
  simpl fst. unfold is_micro_batch_done. simpl mb_description_buffer.
  set (buf := Dict.set (idx m) (Head h) (mb_description_buffer m)).
  assert (Dict.get (idx m) buf = Some (Head h)) as Hget by apply dict_get_set_eq.
  destruct buf as [|kv buf'] eqn:Hbuf; [discriminate|].
  change (Nat.eqb (length (kv :: buf')) 0) with false. cbv iota.
  rewrite <- Hbuf in *. apply done_loop_false.
  - apply Forall_forall. intros x Hx. subst buf.
    apply dict_values_set in Hx as [->|Hx].
    + simpl. by rewrite Hnone.
    + rewrite Forall_forall in Hrows. auto.
  - apply Exists_exists. exists (Head h). split.
    + by apply (dict_get_elem (idx m)).
    + unfold state, state_of. simpl. unfold head_cur_length. rewrite Hnone, Htarget.
      simpl.
      destruct (Z.eqb_spec (mb_length (head_base h))
                  (mb_length (head_base h) + max_output_len m)); [lia|].
      by destruct (Z.eqb (mb_length (head_base h))
                     (mb_length (head_base h) + max_output_len m - 1)).
Qed.

Lemma update_base (d : Description) (a : option Tensor) :
  base (fst (update d a)) = base d.
Proof.
  destruct d as [h|b]; simpl; [|done].
  pose proof (proj1 (head_update_base h a)) as H.
  by destruct (head_update h a).
Qed.

(** X23. The inference state of a description is made once, by
    [init_from_batch] with the cache manager found at the cursor's index in
    [cache_manager_list], when the description is added; [step] never
    replaces it, and [cur_infer_state] is [None] exactly when nothing is
    stored at the current position. *)
Theorem infer_state_lifetime
    (m : MicroBatchManager) (inputs_dict : option (gmap string Tensor))
    (new_token : option Tensor) :
  (snd (add_description m inputs_dict) = Ok tt ->
   exists batch cm st,
     inputs_dict = Some batch
     /\ list_getitem (cache_manager_list m) (idx m) = Ok cm
     /\ init_from_batch batch (max_input_len m) (max_output_len m) cm = Ok st
     /\ cur_infer_state (fst (add_description m inputs_dict)) = Some st)
  /\ cur_infer_state (fst (step m new_token)) = cur_infer_state m
  /\ (cur_infer_state m = None <-> cur_description m = None).
Proof.
  split; [|split].
  - unfold add_description, new_description.
    destruct (list_getitem (cache_manager_list m) (idx m)) as [cm|]; simpl;
      [|discriminate].
    destruct inputs_dict as [batch|].
    2: { by destruct (Z.eqb (stage m) 0). }
    pose proof (built_infer_state batch (max_input_len m) (max_output_len m) cm) as H.
    unfold cur_infer_state, cur_description.
    destruct (Z.eqb (stage m) 0).
    + destruct (HeadMicroBatchDescription_init _ _ _ _) as [h|] eqn:E; simpl;
        [|discriminate].
      intros _. rewrite dict_get_set_eq. simpl.
      destruct (proj1 H h eq_refl) as (st & Hst & Hinf). rewrite Hinf. by exists batch, cm, st.
    + destruct (BodyMicroBatchDescription_init _ _ _ _) as [b|] eqn:E; simpl;
        [|discriminate].
      intros _. rewrite dict_get_set_eq. simpl.
      destruct (proj2 H b eq_refl) as (st & Hst & Hinf). rewrite Hinf. by exists batch, cm, st.
  - unfold step, cur_infer_state.
    destruct (cur_description m) as [d|] eqn:Hd; simpl.
    + pose proof (update_base d new_token) as Hb.
      destruct (update d new_token) as [d' r]. simpl in Hb.
      assert (cur_description
                (with_buffer m (Dict.set (idx m) d' (mb_description_buffer m)))
              = Some d') as Hcur by apply dict_get_set_eq.
      destruct r; simpl; rewrite Hcur; by rewrite Hb.
    + by rewrite Hd.
  - unfold cur_infer_state. by destruct (cur_description m).
Qed.


(** ** The export against the history of calls *)

Lemma log_matches_keys (b : nat) (l : fill_log) (buf : Dict.t Description) :
  log_matches b l buf -> map fst l = Dict.keys buf.
Proof.
  induction 1 as [|e kv l buf [Hk _] _ IH]; [done|].
  simpl. by rewrite Hk, IH.
Qed.

Lemma log_update_absent (k : Z) (g : Z * list (list Z) -> Z * list (list Z))
    (l : fill_log) :
  k ∉ map fst l -> map (fun e => if Z.eqb (fst e) k then g e else e) l = l.
Proof.
  induction l as [|e l IH]; [done|]. simpl. rewrite not_elem_of_cons.
  intros [Hne Hnot]. destruct (Z.eqb_spec (fst e) k); [congruence|].
  by rewrite IH.
Qed.

Lemma log_remove_absent (k : Z) (l : fill_log) :
  k ∉ map fst l -> log_remove k l = l.
Proof.
  unfold log_remove. induction l as [|e l IH]; [done|]. simpl.
  rewrite not_elem_of_cons. intros [Hne Hnot].
  destruct (Z.eqb_spec (fst e) k); [congruence|]. simpl. by rewrite IH.
Qed.

(** The description at a position that is present is replaced. *)
Lemma log_matches_set_present (b : nat) (k : Z) (g : list (list Z) -> list (list Z))
    (d_old d_new : Description) (l : fill_log) (buf : Dict.t Description) :
  log_matches b l buf ->
  NoDup (map fst l) ->
  Dict.get k buf = Some d_old ->
  (forall cols, slot_holds b cols d_old -> slot_holds b (g cols) d_new) ->
  log_matches b
    (map (fun e => if Z.eqb (fst e) k then (fst e, g (snd e)) else e) l)
    (Dict.set k d_new buf).
Proof.
  intros Hm. induction Hm as [|e [k' d'] l buf [Hk Hs] Hrest IH];
    intros Hnd Hget Hg; [done|].
  simpl in *. subst k'. apply NoDup_cons in Hnd as [Hnotin Hnd].
  destruct (Z.eqb_spec (fst e) k) as [Heq|Hne].
  - injection Hget as ->. rewrite <- Heq in *.
    rewrite log_update_absent by done.
    constructor; [|done]. simpl. auto.
  - constructor; [by split|]. by apply IH.
Qed.

(** A description is stored at a position that was free. *)
Lemma log_matches_set_absent (b : nat) (k : Z) (d : Description)
    (l : fill_log) (buf : Dict.t Description) :
  log_matches b l buf ->
  Dict.get k buf = None ->
  slot_holds b [] d ->
  log_matches b (l ++ [(k, [])]) (Dict.set k d buf).
Proof.
  intros Hm Hget Hd. rewrite dict_set_absent by done.
  apply Forall2_app; [done|]. by repeat constructor.
Qed.

Lemma dict_remove_absent {V : Type} (k : Z) (d : Dict.t V) :
  Dict.get k d = None -> Dict.remove k d = d.
Proof.
  induction d as [|[k' v'] d IH]; simpl; [done|].
  destruct (Z.eqb k' k); [discriminate|]. intros Hget. by rewrite IH.
Qed.

Lemma dict_keys_remove_NoDup {V : Type} (k : Z) (d : Dict.t V) :
  NoDup (Dict.keys d) -> NoDup (Dict.keys (Dict.remove k d)).
Proof.
  induction d as [|[k' v'] d IH]; simpl; [done|].
  rewrite NoDup_cons. intros [Hnotin Hnd].
  destruct (Z.eqb_spec k' k); [done|]. simpl. apply NoDup_cons. split; [|auto].
  intros Hin. apply Hnotin. clear -Hin n. induction d as [|[j w] d IHd]; simpl in *.
  - by apply not_elem_of_nil in Hin.
  - destruct (Z.eqb_spec j k).
    + by apply list_elem_of_further.
    + apply elem_of_cons in Hin as [->|Hin]; [apply list_elem_of_here|].
      apply list_elem_of_further. auto.
Qed.

Lemma log_matches_remove (b : nat) (k : Z) (l : fill_log) (buf : Dict.t Description) :
  log_matches b l buf ->
  NoDup (map fst l) ->
  log_matches b (log_remove k l) (Dict.remove k buf).
Proof.
  intros Hm. induction Hm as [|e [k' d'] l buf [Hk Hs] Hrest IH]; intros Hnd;
    [constructor|].
  simpl in *. subst k'. apply NoDup_cons in Hnd as [Hnotin Hnd].
  unfold log_remove. simpl. destruct (Z.eqb_spec (fst e) k) as [Heq|Hne]; simpl.
  - rewrite <- Heq. fold (log_remove (fst e) l). by rewrite log_remove_absent.
  - constructor; [by split|]. by apply IH.
Qed.

(** Stepping a token column into a head description puts it after the
    columns the description holds. *)
Lemma slot_holds_token (b : nat) (h : HeadMicroBatchDescription) (col : list Z)
    (cols : list (list Z)) :
  length col = b ->
  slot_holds b cols (Head h) ->
  slot_holds b (cols ++ [col]) (Head (fst (head_update h (Some (column col))))).
Proof.
  intros Hlen (h0 & [= <-] & Hcols). eexists. split; [done|].
  rewrite head_update_tokens. unfold _update_newtokens.
  destruct cols as [|c0 cols]; simpl.
  - rewrite Hcols. simpl. eexists. split; [done|]. rewrite <- Hlen.
    apply column_grid_ok.
  - destruct Hcols as (t & -> & Hgrid).
    destruct (cat_grid_ok b (c0 :: cols) t col Hgrid Hlen) as (t' & -> & Hgrid').
    simpl. by exists t'.
Qed.

(** What a run started from an empty first-stage buffer keeps true. *)
Definition log_inv (b : nat) (l : fill_log) (m : MicroBatchManager) : Prop :=
  stage m = 0
  /\ NoDup (Dict.keys (mb_description_buffer m))
  /\ log_matches b l (mb_description_buffer m).

Lemma log_inv_call (b : nat) (l : fill_log) (m : MicroBatchManager) (c : call) :
  log_inv b l m ->
  (forall col, c = CallStep (Some col) -> length col = b) ->
  log_inv b (log_call m c l) (do_call m c).
Proof.
  intros (Hstage & Hnd & Hm) Hcol.
  pose proof (log_matches_keys b l _ Hm) as Hkeys.
  assert (NoDup (map fst l)) as Hndl by by rewrite Hkeys.
  destruct c as [inputs_dict|[col|]| | |]; simpl.
  - unfold add_description.
    destruct (new_description m inputs_dict) as [d|e] eqn:Hnew; simpl; [|done].
    destruct (new_description_head m inputs_dict d Hstage Hnew)
      as (h & -> & Hnone & _).
    assert (slot_holds b [] (Head h)) as Hfresh by by exists h.
    split; [done|]. split; [by apply dict_keys_set_NoDup|]. simpl.
    unfold log_fill. case_bool_decide as Hin.
    + destruct (Dict.get (idx m) (mb_description_buffer m)) as [d_old|] eqn:Hget.
      * by apply (log_matches_set_present b (idx m) (fun _ => []) d_old).
      * apply dict_get_None_keys in Hget. by rewrite Hkeys in Hin.
    + apply log_matches_set_absent; [done| |done].
      apply dict_get_None_keys. by rewrite <- Hkeys.
  - unfold step. destruct (cur_description m) as [d|] eqn:Hd; simpl.
    + assert (exists cols, slot_holds b cols d) as (cols0 & h & -> & _).
      { apply dict_get_elem in Hd as Hin. clear -Hm Hin.
        induction Hm as [|e kv l buf [_ Hs] _ IH]; simpl in Hin.
        - by apply not_elem_of_nil in Hin.
        - apply elem_of_cons in Hin as [->|Hin]; [eauto|auto]. }
      simpl. destruct (head_update h (Some (column col))) as [h1 r] eqn:Hup.
      assert (log_inv b (log_token (idx m) col l)
                (with_buffer m (Dict.set (idx m) (Head h1) (mb_description_buffer m))))
        as Hinv.
      { split; [done|]. split; [by apply dict_keys_set_NoDup|]. simpl.
        apply (log_matches_set_present b (idx m) (fun cols => cols ++ [col])
                 (Head h)); try done.
        intros cols Hcols. replace h1 with (fst (head_update h (Some (column col))))
          by by rewrite Hup.
        apply slot_holds_token; auto. }
      by destruct r.
    + unfold log_token. rewrite log_update_absent; [done|].
      rewrite Hkeys. by apply dict_get_None_keys.
  - unfold step. destruct (cur_description m) as [d|] eqn:Hd; simpl; [|done].
    assert (fst (update d None) = d) as Hsame.
    { destruct d as [h|bd]; simpl; [|done].
      pose proof (head_update_None h) as Hn. destruct (head_update h None). simpl in *.
      by rewrite Hn. }
    destruct (update d None) as [d' r]. simpl in Hsame. subst d'.
    rewrite (dict_set_same (idx m) d) by done.
    by destruct r.
  - unfold next. by destruct (Z.eqb (buffer_size m) 0).
  - split; [done|]. split; constructor.
  - unfold _remove_description.
    destruct (Dict.get (idx m) (mb_description_buffer m)) as [d|] eqn:Hget; simpl.
    + split; [done|]. split; [by apply dict_keys_remove_NoDup|].
      by apply log_matches_remove.
    + rewrite log_remove_absent; [done|].
      rewrite Hkeys. by apply dict_get_None_keys.
Qed.

Lemma log_inv_run (b : nat) (calls : list call) (l : fill_log) (m : MicroBatchManager) :
  log_inv b l m ->
  Forall (fun c => forall col, c = CallStep (Some col) -> length col = b) calls ->
  log_inv b (log_of m calls l) (run m calls).
Proof.
  intros Hinv Hall. revert l m Hinv.
  induction Hall as [|c calls Hc _ IH]; intros l m Hinv; [done|].
  simpl. apply IH. by apply log_inv_call.
Qed.

Lemma grid_ok_rows (b : nat) (cols : list (list Z)) (t : Tensor) :
  grid_ok b cols t -> tolist t = rows_of_columns b cols.
Proof.
  intros (_ & _ & Hlen & Hrows). unfold rows_of_columns.
  change (map ?f (seq 0 b)) with (f <$> seq 0 b).
  apply list_eq. intros i. rewrite list_lookup_fmap.
  destruct (decide (i < b)%nat) as [Hi|Hi].
  - rewrite (Hrows i Hi), lookup_seq_lt by done. done.
  - rewrite lookup_ge_None_2 by lia. rewrite lookup_seq_ge by lia. done.
Qed.

Lemma log_matches_export (b : nat) (l : fill_log) (buf : Dict.t Description) :
  log_matches b l buf ->
  (Forall (fun e => snd e <> []) l ->
   export_loop (Dict.values buf) []
   = Ok (concat (map (fun e => rows_of_columns b (snd e)) l)))
  /\ (Exists (fun e => snd e = []) l ->
      export_loop (Dict.values buf) [] = Raise AttributeError).
Proof.
  intros Hm. split.
  - intros Hall.
    assert (exists ts, map tokens_of (Dict.values buf) = map Some ts
                       /\ map tolist ts = map (fun e => rows_of_columns b (snd e)) l)
      as (ts & Hts & Hrows).
    { induction Hm as [|e kv l buf [_ Hs] _ IH]; [by exists []|].
      apply Forall_cons in Hall as [He Hall].
      destruct (IH Hall) as (ts & Hts & Hrows).
      destruct Hs as (h & Hkv & Hcols).
      destruct (snd e) as [|c0 cols] eqn:Ecols; [done|].
      destruct Hcols as (t & Ht & Hgrid).
      exists (t :: ts). simpl. rewrite Hkv. simpl.
      rewrite Ht, Hts, Hrows, Ecols. by rewrite (grid_ok_rows _ _ _ Hgrid). }
    rewrite (export_loop_Ok _ ts [] Hts). simpl. by rewrite Hrows.
  - intros Hex. apply export_loop_Raise.
    induction Hm as [|e kv l buf [_ Hs] _ IH]; [by apply Exists_nil in Hex|].
    simpl. apply Exists_cons in Hex as [He|Hex].
    + apply Exists_cons_hd. destruct Hs as (h & -> & Hcols).
      rewrite He in Hcols. done.
    + apply Exists_cons_tl. auto.
Qed.

(** C8, as the code has it. A first-stage manager is driven from an empty
    buffer by any sequence of [add_description], [step] (without a token,
    or with one token column of the batch's [b] rows), [next], [clear] and
    [_remove_description].  Then [export_new_tokens] goes through the
    positions in the order in which they were filled: a position goes last
    when a description is added to it while it holds none, and keeps its
    place when its description is replaced or stepped.  When every
    description present has received a token the result is one flat list
    of rows: for each description in that order, one row per batch row,
    row [i] listing the [i]-th id of each token column stepped into the
    description since it was added, in the order of the steps.  When some
    description present has received none, the call raises. *)
Theorem export_follows_fill_log
    (b : nat) (m : MicroBatchManager) (calls : list call) :
  stage m = 0 ->
  mb_description_buffer m = [] ->
  Forall (fun c => forall col, c = CallStep (Some col) -> length col = b) calls ->
  Dict.keys (mb_description_buffer (run m calls)) = map fst (log_of m calls [])
  /\ (Forall (fun e => snd e <> []) (log_of m calls []) ->
      export_new_tokens (run m calls)
      = Ok (concat (map (fun e => rows_of_columns b (snd e)) (log_of m calls []))))
  /\ (Exists (fun e => snd e = []) (log_of m calls []) ->
      export_new_tokens (run m calls) = Raise AttributeError).
Proof.
  intros Hstage Hempty Hcalls.
  destruct (log_inv_run b calls [] m) as (_ & _ & Hm); [|done|].
  { split; [done|]. rewrite Hempty. split; constructor. }
  split; [symmetry; by apply (log_matches_keys b)|].
  apply (log_matches_export b _ _ Hm).
Qed.

End MicroBatch.

(** * Concrete runs

    A stand-in for the cache package, to run the code on concrete inputs:
    the inference state is the sequence length recorded for the batch, the
    cache manager carries nothing. *)

Definition init_len (batch : gmap string Tensor) (max_input_len max_output_len : Z)
    (cache_manager : unit) : result Z :=
  match batch !! "input_ids"%string with
  | Some ids => Ok (Z.of_nat (ncols ids))
  | None => Raise KeyError
  end.

Definition recorded_len (st : Z) : Z := st.

Definition release (cache : unit) : unit := cache.

(** One row of three prompt tokens. *)
Definition prompt : gmap string Tensor :=
  <["input_ids"%string := mkTensor 1 3 [[11; 12; 13]]]>
    (<["attention_mask"%string := mkTensor 1 3 [[1; 1; 1]]]> ∅).

(** The head description of [prompt] for [max_output_len] 1, 2 and 3. *)
Definition head1 : @HeadMicroBatchDescription Z :=
  mkHead (mkBase 3 4 3) (mkTensor 1 3 [[11; 12; 13]]) (mkTensor 1 3 [[1; 1; 1]]) None.

Definition head2 : @HeadMicroBatchDescription Z :=
  mkHead (mkBase 3 5 3) (mkTensor 1 3 [[11; 12; 13]]) (mkTensor 1 3 [[1; 1; 1]]) None.

Definition head3 : @HeadMicroBatchDescription Z :=
  mkHead (mkBase 3 6 3) (mkTensor 1 3 [[11; 12; 13]]) (mkTensor 1 3 [[1; 1; 1]]) None.

(** A first-stage manager with two positions and [max_output_len = 1]. *)
Definition head_manager : @MicroBatchManager Z unit :=
  MicroBatchManager_init 0 1 2 3 1 [tt; tt].

(** A later-stage manager with two positions. *)
Definition body_manager : @MicroBatchManager Z unit :=
  MicroBatchManager_init 1 1 2 3 1 [tt; tt].

(** [head_manager] after a description was added at position 0. *)
Definition head_manager_added : @MicroBatchManager Z unit :=
  fst (add_description init_len head_manager (Some prompt)).

(** ... and after one token was stepped into it. *)
Definition head_manager_stepped : @MicroBatchManager Z unit :=
  fst (step recorded_len head_manager_added (Some (column [7]))).

(** The same with [max_output_len = 2]: after one token the description at
    position 0 is not finished. *)
Definition head_manager_unfinished : @MicroBatchManager Z unit :=
  let m0 : @MicroBatchManager Z unit := MicroBatchManager_init 0 1 2 3 2 [tt; tt] in
  let m1 := fst (add_description init_len m0 (Some prompt)) in
  fst (step recorded_len m1 (Some (column [7]))).

(** The description [head_manager_unfinished] holds at position 0. *)
Definition head2_stepped : @HeadMicroBatchDescription Z :=
  mkHead (mkBase 3 5 3) (mkTensor 1 3 [[11; 12; 13]])
    (mkTensor 1 4 [[1; 1; 1; 1]]) (Some (column [7])).

(** [head_manager] filled from position 1: [next], [add_description],
    [step] with token 7, [next], [add_description], [step] with token 5. *)
Definition head_manager_wrapped : @MicroBatchManager Z unit :=
  let m1 := fst (next head_manager) in
  let m2 := fst (add_description init_len m1 (Some prompt)) in
  let m3 := fst (step recorded_len m2 (Some (column [7]))) in
  let m4 := fst (next m3) in
  let m5 := fst (add_description init_len m4 (Some prompt)) in
  fst (step recorded_len m5 (Some (column [5]))).

Example head1_created :
  HeadMicroBatchDescription_init init_len (Some prompt) 3 1 tt = Ok head1.
Proof. vm_compute. reflexivity. Qed.

(** Scenario A of the specification: two positions, first stage,
    [max_output_len = 2]. *)
Example scenario_A :
  let m0 : @MicroBatchManager Z unit := MicroBatchManager_init 0 1 2 3 2 [tt; tt] in
  let m1 := fst (add_description init_len m0 (Some prompt)) in
  let s2 := step recorded_len m1 (Some (column [7])) in
  let s3 := step recorded_len (fst s2) (Some (column [8])) in
  cur_state recorded_len m1 = Ok GENERATE
  /\ snd s2 = Ok COOLDOWN
  /\ snd s3 = Ok DONE
  /\ export_new_tokens (fst s3) = Ok [[7; 8]]
  /\ is_micro_batch_done recorded_len (fst s3) = Ok true.
Proof. vm_compute. repeat split. Qed.

(** ** Instances of the theorems *)

Lemma head_state_sequence_witness :
  exists s0 h' ss,
    head_state head2 = Ok s0
    /\ observe head2 [column [7]; column [8]] = Ok (h', ss)
    /\ s0 :: ss = replicate (Z.to_nat (2 - 1)) GENERATE ++ [COOLDOWN; DONE]
    /\ (2 = 1 -> s0 = COOLDOWN)
    /\ head_cur_length h' = Ok (target_length (head_base head2)).
Proof.
  apply (head_state_sequence init_len (Some prompt) 3 2 tt head2
           [column [7]; column [8]] 1%nat).
  - lia.
  - vm_compute. reflexivity.
  - reflexivity.
  - lia.
  - repeat constructor.
Defined.

Lemma attn_mask_growth_witness :
  ncols (attn_mask (fst (head_update (fst (head_update head3 (Some (column [7]))))
                           (Some (column [8])))))
  = (ncols (attn_mask head3) + 2)%nat.
Proof.
  refine (proj1 (attn_mask_growth head3 _ [column [7]; column [8]]
                   [GENERATE; COOLDOWN] _ _)).
  - vm_compute. reflexivity.
  - repeat constructor; discriminate.
Defined.

Lemma cur_length_monotone_bounded_witness : 3 <= 4 /\ 4 <= 5.
Proof.
  destruct (cur_length_monotone_bounded head2 [Some (column [7]); None] 3 4)
    as [Hmono Hbound].
  - reflexivity.
  - vm_compute. reflexivity.
  - split; [exact Hmono|]. apply Hbound.
    + simpl. lia.
    + simpl. repeat split. vm_compute. intros [=].
Defined.

Lemma step_delegates_witness :
  step recorded_len head_manager (Some (column [7]))
  = (head_manager, Raise AttributeError)
  /\ snd (step recorded_len head_manager_added (Some (column [7]))) = Ok DONE.
Proof.
  split.
  - apply (proj1 (step_delegates recorded_len head_manager (Some (column [7])))).
    reflexivity.
  - destruct (proj2 (step_delegates recorded_len head_manager_added
                       (Some (column [7]))) (Head head1))
      as (_ & _ & _ & _ & ->).
    + vm_compute. reflexivity.
    + vm_compute. reflexivity.
Defined.

Lemma add_description_replaces_witness :
  snd (add_description init_len head_manager_unfinished (Some prompt)) = Ok tt
  /\ cur_description (fst (add_description init_len head_manager_unfinished (Some prompt)))
     = Some (Head head2).
Proof.
  pose proof (add_description_replaces init_len head_manager_unfinished (Some prompt)
                (Head head2_stepped)) as H.
  assert (new_description init_len head_manager_unfinished (Some prompt)
          = Ok (Head head2)) as E by (vm_compute; reflexivity).
  rewrite E in H. destruct H as (H1 & H2 & _).
  - vm_compute. reflexivity.
  - split; assumption.
Defined.

Lemma is_micro_batch_done_spec_witness :
  is_micro_batch_done recorded_len head_manager = Ok false
  /\ is_micro_batch_done recorded_len (fst (add_description init_len
       (MicroBatchManager_init 0 1 2 3 2 [tt; tt]) (Some prompt))) = Ok false
  /\ is_micro_batch_done recorded_len head_manager_stepped = Ok true.
Proof.
  split; [|split].
  - apply (proj1 (is_micro_batch_done_spec recorded_len head_manager)).
    reflexivity.
  - apply (proj2 (proj2 (is_micro_batch_done_spec recorded_len _))).
    + vm_compute. repeat constructor.
    + apply Exists_cons_hd. vm_compute. intros [=].
  - apply (proj1 (proj2 (is_micro_batch_done_spec recorded_len head_manager_stepped))).
    split.
    + vm_compute. intros [=].
    + vm_compute. repeat constructor.
Defined.

Lemma export_new_tokens_body_witness :
  export_new_tokens body_manager = Ok []
  /\ export_new_tokens (fst (add_description init_len body_manager (Some prompt)))
     = Raise AttributeError.
Proof.
  split.
  - apply (proj1 (export_new_tokens_body init_len recorded_len release body_manager
                    (reach_init _ _ _ 1 1 2 3 1 [tt; tt]) ltac:(simpl; lia))).
    reflexivity.
  - apply (proj2 (export_new_tokens_body init_len recorded_len release _
                    (reach_add _ _ _ body_manager (Some prompt)
                       (reach_init _ _ _ 1 1 2 3 1 [tt; tt]))
                    ltac:(vm_compute; intros [=]))).
    vm_compute. intros [=].
Defined.

(** ** Where the code departs from the specification *)

(** C1. A second [add_description] at an occupied position, whose
    description is not finished, succeeds, and the description that had
    received a token is gone. *)
Lemma add_description_occupied_succeeds :
  cur_description head_manager_unfinished = Some (Head head2_stepped)
  /\ cur_state recorded_len head_manager_unfinished = Ok COOLDOWN
  /\ snd (add_description init_len head_manager_unfinished (Some prompt)) = Ok tt
  /\ cur_description (fst (add_description init_len head_manager_unfinished (Some prompt)))
     = Some (Head head2)
  /\ cur_description (fst (add_description init_len head_manager_unfinished (Some prompt)))
     <> cur_description head_manager_unfinished.
Proof. vm_compute. repeat split. discriminate. Qed.

(** C3. On a later-stage manager that holds no description yet,
    [export_new_tokens] returns the empty list. *)
Lemma export_new_tokens_body_empty :
  stage body_manager <> 0 /\ export_new_tokens body_manager = Ok [].
Proof. vm_compute. split; [discriminate|reflexivity]. Qed.

(** C6. One more token after [DONE] takes the current length past the
    target length. *)
Lemma cur_length_exceeds_target :
  head_cur_length (update_seq head1 [Some (column [7]); Some (column [8])]) = Ok 5
  /\ target_length (head_base head1) = 4
  /\ ~ (5 <= 4).
Proof. split; [vm_compute; reflexivity|split; [reflexivity|lia]]. Qed.

(** C8. Filled from position 1, the buffer is exported with the rows of
    position 1 before those of position 0, and as one flat list of rows. *)
Lemma export_not_in_position_order :
  export_new_tokens head_manager_wrapped = Ok [[7]; [5]]
  /\ collect_outputs_by_position head_manager_wrapped = [[[5]]; [[7]]]
  /\ concat (collect_outputs_by_position head_manager_wrapped) <> [[7]; [5]].
Proof. vm_compute. repeat split. discriminate. Qed.

(** C9. Building a body description with the input record absent, as the
    class's docstring says it always is, does not succeed: the constructor
    raises [TypeError]. *)
Lemma body_init_None_raises :
  BodyMicroBatchDescription_init init_len None 3 1 tt = Raise TypeError.
Proof. reflexivity. Qed.

(** ** Instances of the further properties *)

Lemma head_manager_wrapped_reachable :
  reachable init_len recorded_len release head_manager_wrapped.
Proof.
  unfold head_manager_wrapped. cbv zeta.
  apply reach_step, reach_add, reach_next, reach_step, reach_add, reach_next.
  apply reach_init.
Qed.

Lemma next_cyclic_witness :
  next_n (Z.to_nat 2) head_manager = head_manager
  /\ idx (next_n 1 head_manager) <> idx head_manager.
Proof.
  destruct (next_cyclic head_manager) as [Hback Hnot].
  - simpl. lia.
  - simpl. lia.
  - split; [exact Hback|]. apply (Hnot 1%nat); simpl; lia.
Defined.

Lemma next_range_witness :
  next (MicroBatchManager_init 0 1 0 3 1 [tt] : @MicroBatchManager Z unit)
  = (MicroBatchManager_init 0 1 0 3 1 [tt], Raise ZeroDivisionError)
  /\ 0 <= idx (fst (next head_manager)) < 2.
Proof.
  split.
  - apply (proj1 (next_range _)). reflexivity.
  - apply (proj1 (proj2 (proj2 (next_range head_manager)))). simpl. lia.
Defined.

Lemma reachable_bounds_witness :
  0 <= idx head_manager_wrapped < 2
  /\ Z.of_nat (length (mb_description_buffer head_manager_wrapped)) <= 2.
Proof.
  destruct (reachable_bounds init_len recorded_len release head_manager_wrapped
              head_manager_wrapped_reachable) as (Hidx & _ & _ & Hlen).
  - vm_compute. reflexivity.
  - split; [exact Hidx|exact Hlen].
Defined.

Lemma add_description_fresh_witness :
  cur_description (fst (add_description init_len head_manager (Some prompt)))
  = Some (Head head1).
Proof.
  apply (add_description_fresh init_len head_manager (Some prompt) (Head head1)).
  - reflexivity.
  - vm_compute. reflexivity.
Defined.

Lemma added_head_state_witness :
  cur_state recorded_len (fst (add_description init_len head_manager (Some prompt)))
  = Ok COOLDOWN.
Proof.
  apply (added_head_state init_len recorded_len head_manager (Some prompt)).
  - reflexivity.
  - vm_compute. reflexivity.
Defined.

Lemma add_description_raises_witness :
  add_description init_len
    (MicroBatchManager_init 0 1 2 3 1 [] : @MicroBatchManager Z unit) (Some prompt)
  = (MicroBatchManager_init 0 1 2 3 1 [], Raise IndexError)
  /\ add_description init_len body_manager None = (body_manager, Raise TypeError).
Proof.
  split.
  - apply (proj1 (add_description_raises init_len _ _)). simpl. lia.
  - apply (proj2 (add_description_raises init_len body_manager None)). simpl. lia.
Defined.

Lemma step_without_effect_witness :
  step recorded_len head_manager_unfinished None
  = (head_manager_unfinished, Ok COOLDOWN).
Proof.
  apply (step_without_effect recorded_len head_manager_unfinished
           (Head head2_stepped) None).
  - vm_compute. reflexivity.
  - left. reflexivity.
Defined.

Lemma step_row_mismatch_witness :
  step recorded_len head_manager_unfinished (Some (column [8; 9]))
  = (head_manager_unfinished, Raise RuntimeError).
Proof.
  apply (step_row_mismatch recorded_len head_manager_unfinished head2_stepped
           (column [7]) (column [8; 9])).
  - vm_compute. reflexivity.
  - reflexivity.
  - simpl. lia.
Defined.

Lemma remove_description_spec_witness :
  _remove_description head_manager = (head_manager, Raise KeyError)
  /\ cur_description (fst (_remove_description head_manager_unfinished)) = None.
Proof.
  split.
  - apply (remove_description_spec recorded_len head_manager). constructor.
  - pose proof (remove_description_spec recorded_len head_manager_unfinished) as H.
    assert (cur_description head_manager_unfinished = Some (Head head2_stepped))
      as E by (vm_compute; reflexivity).
    rewrite E in H. apply H. vm_compute. repeat constructor. apply not_elem_of_nil.
Defined.

Lemma add_then_remove_witness :
  _remove_description (fst (add_description init_len head_manager (Some prompt)))
  = (head_manager, Ok tt).
Proof.
  apply (add_then_remove init_len head_manager (Some prompt)).
  - reflexivity.
  - vm_compute. reflexivity.
Defined.

Lemma cur_length_counts_columns_witness :
  head_cur_length
    (fst (head_update head3 (Some (mkTensor 1 2 [[7; 8]]))))
  = Ok (3 + Z.of_nat (sum_list_with ncols [mkTensor 1 2 [[7; 8]]])).
Proof.
  apply (cur_length_counts_columns head3 _ [mkTensor 1 2 [[7; 8]]] [COOLDOWN] 3).
  - reflexivity.
  - vm_compute. reflexivity.
Defined.

Lemma token_after_DONE_witness :
  head_state (update_seq head1 [Some (column [7]); Some (column [8])]) = Ok GENERATE.
Proof.
  apply (proj1 (token_after_DONE (fst (head_update head1 (Some (column [7]))))
                  (column [8]) ltac:(vm_compute; reflexivity)
                  ltac:(vm_compute; reflexivity) ltac:(simpl; lia))).
Defined.

Lemma attn_mask_rows_witness :
  tolist (attn_mask (update_seq head3 [Some (column [7]); Some (column [8])]))
  = map (fun r => r ++ replicate 2 1) [[1; 1; 1]].
Proof.
  refine (proj1 (attn_mask_rows head3 _ [column [7]; column [8]]
                   [GENERATE; COOLDOWN] _ _ _)).
  - split; [reflexivity|repeat constructor].
  - vm_compute. reflexivity.
  - repeat constructor; discriminate.
Defined.

Lemma update_token_without_rows_witness :
  snd (head_update head1 (Some (mkTensor 0 1 []))) = Raise IndexError
  /\ head_state (update_seq (fst (head_update head1 (Some (mkTensor 0 1 []))))
                   [Some (column [7])])
     = Raise IndexError.
Proof.
  destruct (update_token_without_rows head1 (mkTensor 0 1 [])) as [Hup Hafter].
  - reflexivity.
  - reflexivity.
  - split; [by rewrite Hup|apply Hafter].
Defined.

Lemma round_of_one_witness :
  exists (s0 : Status) (ss : list Status) (m' : @MicroBatchManager Z unit)
         (rows : list (list Z)),
    cur_state recorded_len
      (fst (add_description init_len (MicroBatchManager_init 0 2 2 3 2 [tt; tt])
              (Some prompt))) = Ok s0
    /\ step_all recorded_len
         (fst (add_description init_len (MicroBatchManager_init 0 2 2 3 2 [tt; tt])
                 (Some prompt)))
         (map column [[7; 70]; [8; 80]]) = (m', Ok ss)
    /\ s0 :: ss = replicate (Z.to_nat (2 - 1)) GENERATE ++ [COOLDOWN; DONE]
    /\ cur_state recorded_len m' = Ok DONE
    /\ is_micro_batch_done recorded_len m' = Ok true
    /\ export_new_tokens m' = Ok rows
    /\ length rows = 2%nat
    /\ forall i, (i < 2)%nat ->
         rows !! i = Some (map (fun col => nth i col 0) [[7; 70]; [8; 80]]).
Proof.
  apply (round_of_one init_len recorded_len
           (MicroBatchManager_init 0 2 2 3 2 [tt; tt]) (Some prompt)
           [[7; 70]; [8; 80]] 2%nat).
  - reflexivity.
  - reflexivity.
  - vm_compute. reflexivity.
  - simpl. lia.
  - reflexivity.
  - lia.
  - repeat constructor.
Defined.

Lemma update_keeps_wf_witness :
  wf (attn_mask (update_seq head3 [Some (column [7]); None; Some (column [8])])).
Proof.
  refine (proj1 (update_keeps_wf head3 [Some (column [7]); None; Some (column [8])]
                   _ _ _)).
  - split; [reflexivity|repeat constructor].
  - intros t Ht. discriminate Ht.
  - repeat (apply Forall_cons_2;
              [intros t Ht;
               first [discriminate Ht|injection Ht as <-; apply wf_column]|]).
    apply Forall_nil_2.
Defined.

Lemma add_description_not_done_witness :
  is_micro_batch_done recorded_len
    (fst (add_description init_len (fst (next head_manager_stepped)) (Some prompt)))
  = Ok false.
Proof.
  apply (add_description_not_done init_len recorded_len
           (fst (next head_manager_stepped)) (Some prompt)).
  - reflexivity.
  - vm_compute. intros [=].
  - vm_compute. reflexivity.
  - vm_compute. repeat constructor.
Defined.

Lemma infer_state_lifetime_witness :
  cur_infer_state (fst (step recorded_len head_manager_added (Some (column [7]))))
  = cur_infer_state head_manager_added
  /\ exists batch cm st,
       Some prompt = Some batch
       /\ list_getitem (cache_manager_list head_manager) (idx head_manager) = Ok cm
       /\ init_len batch (max_input_len head_manager) (max_output_len head_manager) cm
          = Ok st
       /\ cur_infer_state (fst (add_description init_len head_manager (Some prompt)))
          = Some st.
Proof.
  split.
  - apply (infer_state_lifetime init_len recorded_len head_manager_added None
             (Some (column [7]))).
  - apply (proj1 (infer_state_lifetime init_len recorded_len head_manager
                    (Some prompt) None)).
    vm_compute. reflexivity.
Defined.

Lemma clear_resets_witness :
  Dict.keys (mb_description_buffer
               (fst (add_description init_len
                       (clear release (fst (next head_manager_stepped)))
                       (Some prompt))))
  = [1].
Proof.
  apply (proj2 (proj2 (proj2 (proj2 (proj2 (proj2
           (clear_resets init_len recorded_len release
              (fst (next head_manager_stepped))))))))).
  vm_compute. reflexivity.
Defined.

(** Position 0 is filled, then position 1; the description at position 0
    is removed and a new one is added there: position 0 is now visited
    after position 1. *)
Definition refill_calls : list call :=
  [CallAdd (Some prompt); CallStep (Some [9]); CallNext;
   CallAdd (Some prompt); CallStep (Some [5]); CallNext;
   CallRemove; CallAdd (Some prompt); CallStep (Some [8])].

Lemma export_follows_fill_log_witness :
  Dict.keys (mb_description_buffer
               (run init_len recorded_len release head_manager refill_calls))
  = [1; 0]
  /\ export_new_tokens (run init_len recorded_len release head_manager refill_calls)
     = Ok [[5]; [8]].
Proof.
  destruct (export_follows_fill_log init_len recorded_len release 1%nat
              head_manager refill_calls) as (Hkeys & Hrows & _).
  - reflexivity.
  - reflexivity.
  - unfold refill_calls.
    repeat (apply Forall_cons_2;
              [intros col Hc; first [discriminate Hc|by injection Hc as <-]|]).
    apply Forall_nil_2.
  - split.
    + rewrite Hkeys. vm_compute. reflexivity.
    + rewrite Hrows.
      * vm_compute. reflexivity.
      * vm_compute. repeat constructor; discriminate.
Defined.
